(** * dirtree.c: recursive directory listing with summary statistics

    A shallow embedding of [src/dirtree.c] (dirent_compare, processDir and
    main) together with the properties of its traversal.

    Conventions of the model.
    - C strings are [string] values (the bytes before the NUL terminator).
    - [unsigned int], [unsigned long long] and [unsigned short] values are
      integers of [Z] reduced modulo 2^32, 2^64 and 2^16 where the C code
      stores them.
    - The file system is a function from a path to the entries that
      [readdir] hands out for it, or [None] when [opendir] fails.
    - [stdout] and [stderr] are lists of print events, one per [printf]
      group of the source, carrying the printed arguments.
    - Of the executions whose behaviour C leaves undefined, two end in
      [Fault]: a write past the end of the [newPath] allocation, and
      overflow of the [int] entry counter. Memory beyond that is not
      modelled: allocation is assumed to succeed, and the [memcpy] of line
      155, which reads [sizeof(struct dirent)] bytes from a record that
      [readdir] may have made shorter, is taken to copy the record, so
      that what lies behind a record in the stream's buffer plays no part.
      A result [Ok] therefore says what the program computes when it stays
      clear of these; it is not a proof that it does.
    - The recursion of [processDir] is bounded by a [fuel] argument; an
      exhausted budget is the outcome [Timeout]. A run that ends otherwise
      ends the same way under every larger budget ([processDir_more_fuel]),
      and on a tree within the bounds of [runs_within] a budget of its
      nesting depth is enough ([processDir_returns]).
    - Of libc, [strcmp] is written out; [qsort] and the [basename]/[dirname]
      pair are parameters of the program, [qsort] with the contract
      [qsort_spec]. *)

From Stdlib Require Import ZArith List String Ascii Bool Lia.
From Stdlib Require Import Permutation Sorted.
Import ListNotations.

Local Open Scope Z_scope.

(* ================================================================= *)
(** ** Outcomes *)

Inductive result (A : Type) : Type :=
| Ok (a : A)
| Fault
| Timeout.

Arguments Ok {A} a.
Arguments Fault {A}.
Arguments Timeout {A}.

Definition bind {A B : Type} (r : result A) (k : A -> result B) : result B :=
  match r with
  | Ok a => k a
  | Fault => Fault
  | Timeout => Timeout
  end.

Notation "'do' x <- r ;; k" := (bind r (fun x => k))
  (at level 10, x pattern, r at level 100, k at level 200).

(* ================================================================= *)
(** ** Constants of the source and of <dirent.h> *)

Definition MAX_DIR : Z := 64.

Definition F_TREE : Z := 1.
Definition F_SUMMARY : Z := 2.
Definition F_VERBOSE : Z := 4.

Definition DT_UNKNOWN : Z := 0.
Definition DT_FIFO : Z := 1.
Definition DT_CHR : Z := 2.
Definition DT_DIR : Z := 4.
Definition DT_BLK : Z := 6.
Definition DT_REG : Z := 8.
Definition DT_LNK : Z := 10.
Definition DT_SOCK : Z := 12.

Definition EXIT_SUCCESS : Z := 0.
Definition EXIT_FAILURE : Z := 1.

Definition UINT_RANGE : Z := 2 ^ 32.
Definition ULLONG_RANGE : Z := 2 ^ 64.
Definition USHRT_RANGE : Z := 2 ^ 16.
Definition INT_MAX : Z := 2 ^ 31 - 1.

(* ================================================================= *)
(** ** Data *)

(** [struct summary]. *)
Record summary : Type := mkSummary {
  dirs : Z;
  files : Z;
  links : Z;
  fifos : Z;
  socks : Z;
  size : Z;
  blocks : Z
}.

(** [memset(&s, 0, sizeof(s))]. *)
Definition summary_zero : summary := mkSummary 0 0 0 0 0 0 0.

(** The fields of [struct dirent] that the program reads. *)
Record dirent : Type := mkDirent {
  d_type : Z;
  d_reclen : Z;
  d_name : string
}.

(** What [lstat] would report for a path. The program never asks. *)
Record stat : Type := mkStat {
  st_type : Z;
  st_size : Z;
  st_blocks : Z
}.

Record filesystem : Type := mkFs {
  dir_stream : string -> option (list dirent);
  lstat : string -> option stat
}.

Inductive event : Type :=
| EntryLine (name : string)
| DirectoryHeader (dir : string)
| DirectorySummary (dstat : summary)
| GrandTotalCounts (ndir : Z) (tstat : summary)
| GrandTotalSizes (tstat : summary)
| TooManyDirectories (arg : string)
| BlankLines
| UnrecognizedOption (arg : string)
| Usage (argv0 : string).

(** The process state outside the program's variables: what was printed
    and which directory streams are open. *)
Record world : Type := mkWorld {
  stdout : list event;
  stderr : list event;
  open_dirs : list nat
}.

Definition world_init : world := mkWorld [] [] [].

Definition printf (w : world) (e : event) : world :=
  mkWorld (stdout w ++ [e]) (stderr w) (open_dirs w).

Definition fprintf_stderr (w : world) (e : event) : world :=
  mkWorld (stdout w) (stderr w ++ [e]) (open_dirs w).

(** A successful [opendir] returns a stream that is not open yet. *)
Definition fresh_dir (w : world) : nat := S (list_max (open_dirs w)).

Definition opendir (fs : filesystem) (path : string) (w : world)
  : option (nat * list dirent * world) :=
  match dir_stream fs path with
  | None => None
  | Some entries =>
      let dir := fresh_dir w in
      Some (dir, entries, mkWorld (stdout w) (stderr w) (dir :: open_dirs w))
  end.

Definition closedir (dir : nat) (w : world) : world :=
  mkWorld (stdout w) (stderr w) (remove Nat.eq_dec dir (open_dirs w)).

(* ================================================================= *)
(** ** strcmp and dirent_compare *)

Definition uchar (c : ascii) : Z := Z.of_N (N_of_ascii c).

(** [strcmp]: bytes are compared as [unsigned char]; the terminator of the
    shorter string is below every byte. ISO C fixes the sign only. *)
Fixpoint strcmp (s t : string) : Z :=
  match s, t with
  | EmptyString, EmptyString => 0
  | EmptyString, String _ _ => -1
  | String _ _, EmptyString => 1
  | String c s', String d t' =>
      match uchar c ?= uchar d with
      | Lt => -1
      | Gt => 1
      | Eq => strcmp s' t'
      end
  end.

Definition dirent_compare (e1 e2 : dirent) : Z :=
  if (d_type e1 =? DT_DIR) && negb (d_type e2 =? DT_DIR) then -1
  else if negb (d_type e1 =? DT_DIR) && (d_type e2 =? DT_DIR) then 1
  else strcmp (d_name e1) (d_name e2).

(* ================================================================= *)
(** ** processDir *)

(** Lines 122-133: the buffer is sized from the two lengths as stored in
    [unsigned short] variables; [strcpy]/[strcat] then write the whole
    strings. [None] when they write past the allocation. *)
Definition newPath (pstr dn : string) : option string :=
  let oldPathLength := Z.of_nat (String.length pstr) mod USHRT_RANGE in
  let newDirNameLength := Z.of_nat (String.length dn) mod USHRT_RANGE in
  let allocated := oldPathLength + newDirNameLength + 2 in
  let separator :=
    if (0 <? oldPathLength) &&
       match String.get (Z.to_nat (oldPathLength - 1)) pstr with
       | Some c => negb (Ascii.eqb c "/")
       | None => true
       end
    then "/"%string else EmptyString in
  let path := (pstr ++ separator ++ dn)%string in
  if Z.of_nat (String.length path) + 1 <=? allocated then Some path else None.

(** Lines 149-152: the entries the [readdir] loop keeps. *)
Definition not_dot (dp : dirent) : bool :=
  negb ((strcmp (d_name dp) "." =? 0) || (strcmp (d_name dp) ".." =? 0)).

(** Lines 180-198: the [switch] on [d_type]. *)
Definition update_stats (stats : summary) (dp : dirent) : summary :=
  let t := d_type dp in
  if t =? DT_REG then
    mkSummary (dirs stats) ((files stats + 1) mod UINT_RANGE) (links stats)
              (fifos stats) (socks stats)
              ((size stats + d_reclen dp) mod ULLONG_RANGE) (blocks stats)
  else if t =? DT_DIR then
    mkSummary ((dirs stats + 1) mod UINT_RANGE) (files stats) (links stats)
              (fifos stats) (socks stats) (size stats) (blocks stats)
  else if t =? DT_LNK then
    mkSummary (dirs stats) (files stats) ((links stats + 1) mod UINT_RANGE)
              (fifos stats) (socks stats) (size stats) (blocks stats)
  else if t =? DT_FIFO then
    mkSummary (dirs stats) (files stats) (links stats)
              ((fifos stats + 1) mod UINT_RANGE) (socks stats)
              (size stats) (blocks stats)
  else if t =? DT_SOCK then
    mkSummary (dirs stats) (files stats) (links stats) (fifos stats)
              ((socks stats + 1) mod UINT_RANGE) (size stats) (blocks stats)
  else stats.

(** Line 200: the test that guards the recursive call. *)
Definition descends (dp : dirent) : bool :=
  (d_type dp =? DT_DIR) && negb (strcmp (d_name dp) ".." =? 0)
                        && negb (strcmp (d_name dp) "." =? 0).

(** Lines 174-204: the loop over the sorted entries. [recurse] stands for
    the call [processDir(dp->d_name, newPath, stats, flags)]. *)
Fixpoint visit (recurse : string -> summary -> world -> result (summary * world))
    (entries : list dirent) (stats : summary) (w : world)
  : result (summary * world) :=
  match entries with
  | [] => Ok (stats, w)
  | dp :: rest =>
      let w1 := printf w (EntryLine (d_name dp)) in
      let stats1 := update_stats stats dp in
      if descends dp then
        do (stats2, w2) <- recurse (d_name dp) stats1 w1 ;;
        visit recurse rest stats2 w2
      else visit recurse rest stats1 w1
  end.

(** Line 326: [parentPath == NULL ? "./" : parentPath]. *)
Definition parent_path (parent : option string) : string :=
  match parent with
  | None => "./"%string
  | Some p => p
  end.

Section Program.

(** [qsort] of libc, and the two libgen calls of lines 323-325 taken
    together: the last component and the parent path of a root
    ([None] for a NULL [dirname] result). *)
Variable qsort : (dirent -> dirent -> Z) -> list dirent -> list dirent.
Variable libgen : string -> string * option string.
Variable fs : filesystem.

(** Lines 167-171: the entries are sorted, twice, before the loop. *)
Definition sort_entries (entries : list dirent) : list dirent :=
  qsort dirent_compare (qsort dirent_compare entries).

Fixpoint processDir (fuel : nat) (dn pstr : string) (stats : summary)
    (flags : Z) (w : world) : result (summary * world) :=
  match fuel with
  | O => Timeout
  | S fuel' =>
      match newPath pstr dn with
      | None => Fault
      | Some path =>
          match opendir fs path w with
          | None => Ok (stats, w)
          | Some (dir, stream, w1) =>
              let entries := filter not_dot stream in
              if INT_MAX <? Z.of_nat (List.length entries) then Fault
              else if Z.of_nat (List.length entries) =? 0
              then Ok (stats, closedir dir w1)
              else
                let sorted := sort_entries entries in
                do (stats', w2) <-
                   visit (fun name st w' =>
                            processDir fuel' name path st flags w')
                         sorted stats w1 ;;
                Ok (stats', closedir dir w2)
          end
      end
  end.


(** Lines 332-338: [tstat.f += dstat.f] for each field. *)
Definition add_summary (tstat dstat : summary) : summary :=
  mkSummary ((dirs tstat + dirs dstat) mod UINT_RANGE)
            ((files tstat + files dstat) mod UINT_RANGE)
            ((links tstat + links dstat) mod UINT_RANGE)
            ((fifos tstat + fifos dstat) mod UINT_RANGE)
            ((socks tstat + socks dstat) mod UINT_RANGE)
            ((size tstat + size dstat) mod ULLONG_RANGE)
            ((blocks tstat + blocks dstat) mod ULLONG_RANGE).

Definition flag_set (flags flag : Z) : bool :=
  negb (Z.land flags flag =? 0).

(** Lines 310-351: the loop over [directories]. *)
Fixpoint process_directories (fuel : nat) (flags : Z)
    (directories : list string) (tstat : summary) (w : world)
  : result (summary * world) :=
  match directories with
  | [] => Ok (tstat, w)
  | d :: rest =>
      let dstat := summary_zero in
      let w1 := if flag_set flags F_SUMMARY
                then printf w (DirectoryHeader d) else w in
      let (lastComponent, parent) := libgen d in
      let parentPath := parent_path parent in
      do (dstat', w2) <-
         processDir fuel lastComponent parentPath dstat flags w1 ;;
      let tstat' := add_summary tstat dstat' in
      let w3 := if flag_set flags F_SUMMARY
                then printf w2 (DirectorySummary dstat') else w2 in
      process_directories fuel flags rest tstat' w3
  end.

(** Lines 354-370: the grand total. *)
Definition report_totals (flags : Z) (ndir : Z) (tstat : summary)
    (w : world) : world :=
  if flag_set flags F_SUMMARY && (1 <? ndir) then
    let w1 := printf w (GrandTotalCounts ndir tstat) in
    if flag_set flags F_VERBOSE then printf w1 (GrandTotalSizes tstat)
    else w1
  else w.

(** [syntax]: message and usage, then [exit(EXIT_FAILURE)]. *)
Definition syntax (argv0 : string) (error : option string) (w : world)
  : world :=
  let w1 := match error with
            | Some arg => printf (fprintf_stderr w (UnrecognizedOption arg))
                                 BlankLines
            | None => w
            end in
  fprintf_stderr w1 (Usage argv0).

(** Lines 260-288: the argument loop. [inl] when [syntax] ended the
    process. *)
Fixpoint parse_args (argv0 : string) (args : list string) (flags : Z)
    (directories : list string) (w : world)
  : world + (Z * list string * world) :=
  match args with
  | [] => inr (flags, directories, w)
  | arg :: rest =>
      match arg with
      | String "-" _ =>
          if strcmp arg "-t" =? 0
          then parse_args argv0 rest (Z.lor flags F_TREE) directories w
          else if strcmp arg "-s" =? 0
          then parse_args argv0 rest (Z.lor flags F_SUMMARY) directories w
          else if strcmp arg "-v" =? 0
          then parse_args argv0 rest (Z.lor flags F_VERBOSE) directories w
          else if strcmp arg "-h" =? 0
          then inl (syntax argv0 None w)
          else inl (syntax argv0 (Some arg) w)
      | _ =>
          if Z.of_nat (List.length directories) <? MAX_DIR
          then parse_args argv0 rest flags (directories ++ [arg]) w
          else parse_args argv0 rest flags directories
                          (printf w (TooManyDirectories arg))
      end
  end.

Definition main (fuel : nat) (argv : list string) (w : world)
  : result (Z * world) :=
  match parse_args (hd EmptyString argv) (tl argv) 0 [] w with
  | inl w' => Ok (EXIT_FAILURE, w')
  | inr (flags, parsed, w1) =>
      let directories :=
        match parsed with [] => ["."%string] | _ => parsed end in
      do (tstat, w2) <-
         process_directories fuel flags directories summary_zero w1 ;;
      Ok (EXIT_SUCCESS,
          report_totals flags (Z.of_nat (List.length directories)) tstat w2)
  end.

(** *** The traversal as a list

    The entries [processDir] visits, in the order it prints them. Used
    to state what the imperative code computes. *)
Fixpoint walk_entries (recurse : string -> result (list dirent))
    (entries : list dirent) : result (list dirent) :=
  match entries with
  | [] => Ok []
  | dp :: rest =>
      if descends dp then
        do below <- recurse (d_name dp) ;;
        do after <- walk_entries recurse rest ;;
        Ok (dp :: below ++ after)
      else
        do after <- walk_entries recurse rest ;;
        Ok (dp :: after)
  end.

Fixpoint walk (fuel : nat) (dn pstr : string) : result (list dirent) :=
  match fuel with
  | O => Timeout
  | S fuel' =>
      match newPath pstr dn with
      | None => Fault
      | Some path =>
          match dir_stream fs path with
          | None => Ok []
          | Some stream =>
              let entries := filter not_dot stream in
              if INT_MAX <? Z.of_nat (List.length entries) then Fault
              else if Z.of_nat (List.length entries) =? 0 then Ok []
              else walk_entries (fun name => walk fuel' name path)
                                (sort_entries entries)
          end
      end
  end.

(** Directories below [pstr]/[dn] nest fewer than [n] levels, counting
    only the entries the loop descends into. *)
Fixpoint nesting_below (n : nat) (dn pstr : string) : Prop :=
  match n with
  | O => False
  | S n' =>
      match newPath pstr dn with
      | None => True
      | Some path =>
          match dir_stream fs path with
          | None => True
          | Some stream =>
              forall dp, In dp stream -> descends dp = true ->
                         nesting_below n' (d_name dp) path
          end
      end
  end.

(** As [nesting_below], and no call below [pstr]/[dn] ends in [Fault]:
    every composed path fits its allocation and no directory has more
    entries than an [int] counts. These are the two faults of the model;
    the read of the [memcpy] of line 155 past a short record is not among
    them (see the conventions at the head of the file). *)
Fixpoint runs_within (n : nat) (dn pstr : string) : Prop :=
  match n with
  | O => False
  | S n' =>
      match newPath pstr dn with
      | None => False
      | Some path =>
          match dir_stream fs path with
          | None => True
          | Some stream =>
              Z.of_nat (List.length (filter not_dot stream)) <= INT_MAX /\
              forall dp, In dp stream -> descends dp = true ->
                         runs_within n' (d_name dp) path
          end
      end
  end.

End Program.

(** The state a run that visited [visited] leaves behind. *)
Definition tally (visited : list dirent) (stats : summary) : summary :=
  fold_left update_stats visited stats.

Definition entry_lines (visited : list dirent) : list event :=
  map (fun dp => EntryLine (d_name dp)) visited.

Definition printed (visited : list dirent) (w : world) : world :=
  mkWorld (stdout w ++ entry_lines visited) (stderr w) (open_dirs w).

(** The five types that have a counter in [struct summary]. *)
Definition counted (dp : dirent) : bool :=
  (d_type dp =? DT_REG) || (d_type dp =? DT_DIR) || (d_type dp =? DT_LNK)
  || (d_type dp =? DT_FIFO) || (d_type dp =? DT_SOCK).

Definition has_type (t : Z) (dp : dirent) : bool := d_type dp =? t.

Definition count_type (t : Z) (visited : list dirent) : Z :=
  Z.of_nat (List.length (filter (has_type t) visited)).

Definition type_counts (stats : summary) : Z :=
  files stats + dirs stats + links stats + fifos stats + socks stats.

Definition is_dir (dp : dirent) : bool := d_type dp =? DT_DIR.

(** The record lengths of the visited regular files, summed. *)
Definition regular_reclen (visited : list dirent) : Z :=
  fold_right (fun dp acc => if has_type DT_REG dp then d_reclen dp + acc
                            else acc) 0 visited.

(** Every field holds a value of its C type. *)
Definition in_range (stats : summary) : Prop :=
  (0 <= dirs stats < UINT_RANGE) /\ (0 <= files stats < UINT_RANGE) /\
  (0 <= links stats < UINT_RANGE) /\ (0 <= fifos stats < UINT_RANGE) /\
  (0 <= socks stats < UINT_RANGE) /\ (0 <= size stats < ULLONG_RANGE) /\
  (0 <= blocks stats < ULLONG_RANGE).

(** The sum of one field over the per-root statistics. *)
Definition sum_field (f : summary -> Z) (per_root : list summary) : Z :=
  fold_right (fun dstat acc => f dstat + acc) 0 per_root.

(** [total] is the sum of the parts as a C unsigned type of the given
    range holds it: reduced modulo the range, hence the sum itself when
    that fits. *)
Definition sums_to (range total parts : Z) : Prop :=
  total = parts mod range /\ (parts < range -> total = parts).

(** [dstat] is what a run of [processDir] on the root [d] leaves in a
    fresh accumulator, whatever was printed or open before. *)
Definition root_summary
    (qsort : (dirent -> dirent -> Z) -> list dirent -> list dirent)
    (libgen : string -> string * option string) (fs : filesystem)
    (fuel : nat) (flags : Z) (d : string) (dstat : summary) : Prop :=
  forall w1, exists w2,
    processDir qsort fs fuel (fst (libgen d)) (parent_path (snd (libgen d)))
               summary_zero flags w1 = Ok (dstat, w2).

(* ================================================================= *)
(** ** What libc promises about qsort *)

(** A comparison function as [qsort] requires it. *)
Definition consistent (cmp : dirent -> dirent -> Z) : Prop :=
  (forall a b, cmp a b < 0 <-> 0 < cmp b a) /\
  (forall a b c, cmp a b <= 0 -> cmp b c <= 0 -> cmp a c <= 0).

Definition ascending (cmp : dirent -> dirent -> Z) : list dirent -> Prop :=
  StronglySorted (fun a b => cmp a b <= 0).

Definition qsort_spec
    (qsort : (dirent -> dirent -> Z) -> list dirent -> list dirent) : Prop :=
  forall cmp l, consistent cmp ->
    Permutation l (qsort cmp l) /\ ascending cmp (qsort cmp l).

(** One function that meets [qsort_spec]. *)
Fixpoint insert_sorted (cmp : dirent -> dirent -> Z) (x : dirent)
    (l : list dirent) : list dirent :=
  match l with
  | [] => [x]
  | y :: l' => if cmp x y <=? 0 then x :: l else y :: insert_sorted cmp x l'
  end.

Definition insertion_sort (cmp : dirent -> dirent -> Z) (l : list dirent)
  : list dirent :=
  fold_right (insert_sorted cmp) [] l.

(* ================================================================= *)
(** ** The order of the specification *)

(** Byte-wise lexicographic order on names. *)
Inductive lex_lt : string -> string -> Prop :=
| lex_lt_prefix : forall c t, lex_lt EmptyString (String c t)
| lex_lt_byte : forall c d s t, uchar c < uchar d ->
                                lex_lt (String c s) (String d t)
| lex_lt_tail : forall c s t, lex_lt s t -> lex_lt (String c s) (String c t).

Definition lex_le (s t : string) : Prop := s = t \/ lex_lt s t.

(** Directories first, then by name within each group. *)
Definition listed_before (a b : dirent) : Prop :=
  (is_dir b = true -> is_dir a = true) /\
  (is_dir a = is_dir b -> lex_le (d_name a) (d_name b)).

(* ================================================================= *)
(** ** Path composition

    [stem] and [joined] say what lines 128-133 compute; the invariant of
    the specification is [one_separator_between]. *)

(** [parent] without its last byte, when that byte is a separator. Only
    one byte is dropped: the stem of [a//] is [a/]. *)
Fixpoint stem (parent : string) : string :=
  match parent with
  | EmptyString => EmptyString
  | String c rest =>
      match rest with
      | EmptyString => if Ascii.eqb c "/" then EmptyString else parent
      | String _ _ => String c (stem rest)
      end
  end.

(** The stem of the parent, a separator, and the child. Whether that is
    one separator between the two depends on the stem not ending in a
    separator and the child not beginning with one. *)
Definition joined (parent child : string) : string :=
  (stem parent ++ "/" ++ child)%string.

Fixpoint ends_with_separator (s : string) : bool :=
  match s with
  | EmptyString => false
  | String c rest =>
      match rest with
      | EmptyString => Ascii.eqb c "/"
      | String _ _ => ends_with_separator rest
      end
  end.

Definition starts_with_separator (s : string) : bool :=
  match s with
  | EmptyString => false
  | String c _ => Ascii.eqb c "/"
  end.

(** Two separators in a row somewhere in the string. *)
Fixpoint doubled_separator (s : string) : bool :=
  match s with
  | EmptyString => false
  | String c rest =>
      match rest with
      | EmptyString => false
      | String d _ =>
          (Ascii.eqb c "/" && Ascii.eqb d "/") || doubled_separator rest
      end
  end.

(** The invariant of the specification: [path] joins [parent] and [child]
    with exactly one separator. It consists of a base that does not end in
    a separator, one separator, and the child, which does not begin with
    one; the parent is the base, written with or without a separator
    after it. *)
Definition one_separator_between (parent child path : string) : Prop :=
  exists base,
    (parent = base \/ parent = (base ++ "/")%string) /\
    ends_with_separator base = false /\
    starts_with_separator child = false /\
    path = (base ++ "/" ++ child)%string.

(* ================================================================= *)
(** ** Sample inputs *)

Fixpoint replicate (n : nat) (c : ascii) : string :=
  match n with
  | O => EmptyString
  | S n' => String c (replicate n' c)
  end.

(** A root cut at its last separator. *)
Fixpoint split_last (s : string) : option (string * string) :=
  match s with
  | EmptyString => None
  | String c s' =>
      match split_last s' with
      | Some (parent, leaf) => Some (String c parent, leaf)
      | None => if Ascii.eqb c "/" then Some (EmptyString, s') else None
      end
  end.

(** What lines 321-325 obtain from glibc for a root that has no
    repeated separators and, unless it is [/] itself, no separator at its
    end: [basename] returns a pointer into the copy and [dirname] then
    cuts the same copy. When the only separator is the leading one,
    [dirname] ends the copy right behind it, which is where the last
    component began: for [/A] the component read afterwards is empty. For
    the empty root both calls answer [.]. *)
Definition libgen_plain (d : string) : string * option string :=
  match split_last d with
  | None => (match d with EmptyString => "."%string | _ => d end,
             Some "."%string)
  | Some (EmptyString, leaf) =>
      (match leaf with EmptyString => "/"%string | _ => EmptyString end,
       Some "/"%string)
  | Some (parent, leaf) => (leaf, Some parent)
  end.

Definition dot_entries : list dirent :=
  [mkDirent DT_DIR 24 "."; mkDirent DT_DIR 24 ".."].

(** The tree [A/{b.txt, C/{d.txt}}]: [b.txt] holds 1000 bytes in 8 blocks,
    [d.txt] 2000 bytes in 8 blocks. *)
Definition fs_sample : filesystem :=
  mkFs (fun path =>
          if String.eqb path "./A" then
            Some (mkDirent DT_REG 32 "b.txt" :: dot_entries
                  ++ [mkDirent DT_DIR 24 "C"])
          else if String.eqb path "./A/C" then
            Some (dot_entries ++ [mkDirent DT_REG 32 "d.txt"])
          else None)
       (fun path =>
          if String.eqb path "./A" then Some (mkStat DT_DIR 4096 8)
          else if String.eqb path "./A/C" then Some (mkStat DT_DIR 4096 8)
          else if String.eqb path "./A/b.txt" then Some (mkStat DT_REG 1000 8)
          else if String.eqb path "./A/C/d.txt" then
            Some (mkStat DT_REG 2000 8)
          else None).

(** What the run over [fs_sample] from the root [A] leaves. *)
Definition sample_stats : summary := mkSummary 1 2 0 0 0 64 0.

Definition sample_output : list event :=
  [EntryLine "C"; EntryLine "d.txt"; EntryLine "b.txt"].

(** A directory of device nodes. *)
Definition fs_devices : filesystem :=
  mkFs (fun path =>
          if String.eqb path "/dev" then
            Some (dot_entries ++ [mkDirent DT_CHR 24 "null";
                                  mkDirent DT_BLK 24 "sda"])
          else None)
       (fun path =>
          if String.eqb path "/dev/null" then Some (mkStat DT_CHR 0 0)
          else if String.eqb path "/dev/sda" then Some (mkStat DT_BLK 0 0)
          else None).

(** A file system whose directory records carry no type, as [readdir]
    allows: every entry is listed as [DT_UNKNOWN]. [notes] is a regular
    file of 1000 bytes and [sub] a directory holding one file. *)
Definition fs_untyped : filesystem :=
  mkFs (fun path =>
          if String.eqb path "./u" then
            Some [mkDirent DT_UNKNOWN 24 "."; mkDirent DT_UNKNOWN 24 "..";
                  mkDirent DT_UNKNOWN 32 "sub"; mkDirent DT_UNKNOWN 32 "notes"]
          else if String.eqb path "./u/sub" then
            Some [mkDirent DT_UNKNOWN 24 "."; mkDirent DT_UNKNOWN 24 "..";
                  mkDirent DT_UNKNOWN 32 "inner"]
          else None)
       (fun path =>
          if String.eqb path "./u" then Some (mkStat DT_DIR 4096 8)
          else if String.eqb path "./u/sub" then Some (mkStat DT_DIR 4096 8)
          else if String.eqb path "./u/notes" then Some (mkStat DT_REG 1000 8)
          else if String.eqb path "./u/sub/inner" then
            Some (mkStat DT_REG 10 8)
          else None).

(** A directory holding a symbolic link [loop] to itself: every path
    [./d/loop/loop/...] opens the same directory. *)
Definition fs_loop : filesystem :=
  mkFs (fun _ => Some (dot_entries ++ [mkDirent DT_LNK 24 "loop"]))
       (fun _ => Some (mkStat DT_DIR 4096 8)).

(** A root whose parent part is 65536 bytes long. *)
Definition long_parent : string := replicate (Z.to_nat USHRT_RANGE) "a".

Definition long_root : string := (long_parent ++ "/b")%string.

(* ================================================================= *)
(** ** getNext *)

(** What one call of [readdir] hands out: an entry, or NULL with [errno]
    set. The end of the list is NULL with [errno] left at 0. *)
Inductive readdir_result : Type :=
| Entry (dp : dirent)
| ReadError (errno : Z).

(** Lines 60-75. The result is the entry returned (or NULL), the stream
    as the call leaves it, and the error number [perror] reported. *)
Fixpoint getNext (dir : list readdir_result)
  : option dirent * list readdir_result * option Z :=
  match dir with
  | [] => (None, [], None)
  | ReadError errno :: rest => (None, rest, Some errno)
  | Entry next :: rest =>
      if (strcmp (d_name next) "." =? 0) || (strcmp (d_name next) ".." =? 0)
      then getNext rest
      else (Some next, rest, None)
  end.

(** The entries a stream hands out before its first error. *)
Fixpoint entries_read (dir : list readdir_result) : list dirent :=
  match dir with
  | Entry dp :: rest => dp :: entries_read rest
  | _ => []
  end.

(* ================================================================= *)
(** ** The command line, read as a whole *)

(** Line 262: [argv[i][0] == '-']. *)
Definition is_option (arg : string) : bool :=
  match arg with
  | String "-" _ => true
  | _ => false
  end.

(** The bit an argument adds to [flags]. *)
Definition option_flag (arg : string) : Z :=
  if negb (is_option arg) then 0
  else if strcmp arg "-t" =? 0 then F_TREE
  else if strcmp arg "-s" =? 0 then F_SUMMARY
  else if strcmp arg "-v" =? 0 then F_VERBOSE
  else 0.

(** The arguments at which the loop calls [syntax]: [-h] and every
    option that is not [-t], [-s] or [-v]. *)
Definition stops (arg : string) : bool :=
  is_option arg && negb (strcmp arg "-t" =? 0)
  && negb (strcmp arg "-s" =? 0) && negb (strcmp arg "-v" =? 0).

(** The arguments taken as directories. *)
Definition operands (args : list string) : list string :=
  filter (fun arg => negb (is_option arg)) args.

Definition parsed_flags (args : list string) (flags : Z) : Z :=
  fold_left (fun f arg => Z.lor f (option_flag arg)) args flags.

Definition given (opt : string) (args : list string) : bool :=
  existsb (fun arg => strcmp arg opt =? 0) args.

Definition without (opt : string) (args : list string) : list string :=
  filter (fun arg => negb (strcmp arg opt =? 0)) args.

Definition warnings (dropped : list string) : list event :=
  map TooManyDirectories dropped.

(** What the loop over the roots prints for one root that visited
    [visited]. *)
Definition root_block (flags : Z) (d : string) (visited : list dirent)
  : list event :=
  if flag_set flags F_SUMMARY
  then DirectoryHeader d :: entry_lines visited
       ++ [DirectorySummary (tally visited summary_zero)]
  else entry_lines visited.

Fixpoint root_blocks (flags : Z) (directories : list string)
    (runs : list (list dirent)) : list event :=
  match directories, runs with
  | d :: ds, visited :: rest =>
      root_block flags d visited ++ root_blocks flags ds rest
  | _, _ => []
  end.

(** No two entries of a directory share a name. *)
Definition distinct_names (fs : filesystem) : Prop :=
  forall path stream a b,
    dir_stream fs path = Some stream ->
    In a stream -> In b stream -> d_name a = d_name b -> a = b.

(** Sample command lines. *)
Definition many_roots : list string := repeat "A"%string 66.

Definition fs_empty_dir : filesystem :=
  mkFs (fun path => if String.eqb path "./e" then Some dot_entries else None)
       (fun _ => None).

(* ================================================================= *)
(** ** The loop over the roots as a list of runs *)

Section Runs.

Variable qsort : (dirent -> dirent -> Z) -> list dirent -> list dirent.
Variable libgen : string -> string * option string.
Variable fs : filesystem.

(** The entries visited under each root, root by root. *)
Fixpoint walk_roots (fuel : nat) (directories : list string)
  : result (list (list dirent)) :=
  match directories with
  | [] => Ok []
  | d :: rest =>
      do visited <- walk qsort fs fuel (fst (libgen d))
                         (parent_path (snd (libgen d))) ;;
      do runs <- walk_roots fuel rest ;;
      Ok (visited :: runs)
  end.

(** The value of one field of the statistics of a root, 0 when the run
    over the root does not return. *)
Definition root_field (fuel : nat) (f : summary -> Z) (d : string) : Z :=
  match walk qsort fs fuel (fst (libgen d)) (parent_path (snd (libgen d))) with
  | Ok visited => f (tally visited summary_zero)
  | _ => 0
  end.

End Runs.

(** The running total after the roots that visited [runs]. *)
Definition grand_total (runs : list (list dirent)) (tstat : summary)
  : summary :=
  fold_left (fun acc visited => add_summary acc (tally visited summary_zero))
            runs tstat.

(** The sum of [g] over the roots. *)
Definition sum_over (g : string -> Z) (directories : list string) : Z :=
  fold_right (fun d acc => g d + acc) 0 directories.

(** Another function that meets [qsort_spec]: it orders entries that
    compare equal the other way round. *)
Definition insertion_sort_rev (cmp : dirent -> dirent -> Z) (l : list dirent)
  : list dirent :=
  insertion_sort cmp (rev l).

(** No two of the entries share a name. *)
Definition names_differ (entries : list dirent) : Prop :=
  forall a b, In a entries -> In b entries -> d_name a = d_name b -> a = b.

(** The directories [main] traverses for a command line: its first 64
    operands, or the current directory when it has none. *)
Definition roots_of (args : list string) : list string :=
  match firstn 64 (operands args) with
  | [] => ["."%string]
  | _ :: _ => firstn 64 (operands args)
  end.

(** The lines of the grand total for a command line. *)
Definition total_lines (args : list string) (tstat : summary) : list event :=
  if given "-s" args && (1 <? Z.of_nat (List.length (roots_of args))) then
    GrandTotalCounts (Z.of_nat (List.length (roots_of args))) tstat
    :: (if given "-v" args then [GrandTotalSizes tstat] else [])
  else [].

(* ================================================================= *)
(** * Properties *)

(** ** Outcomes *)

Lemma bind_Ok {A B : Type} (r : result A) (k : A -> result B) (b : B) :
  bind r k = Ok b -> exists a, r = Ok a /\ k a = Ok b.
Proof.
  destruct r as [a| |]; simpl; intros H; try discriminate.
  exists a. split; [reflexivity | exact H].
Qed.

(** ** strcmp *)

Lemma uchar_inj (c d : ascii) : uchar c = uchar d -> c = d.
Proof.
  unfold uchar. intros H. apply N2Z.inj in H.
  rewrite <- (ascii_N_embedding c), <- (ascii_N_embedding d).
  now rewrite H.
Qed.

Lemma strcmp_range (s t : string) :
  strcmp s t = -1 \/ strcmp s t = 0 \/ strcmp s t = 1.
Proof.
  revert t. induction s as [|c s IH]; intros [|d t]; simpl; auto.
  destruct (uchar c ?= uchar d); auto.
Qed.

Lemma strcmp_refl (s : string) : strcmp s s = 0.
Proof.
  induction s as [|c s IH]; simpl; [reflexivity|].
  now rewrite Z.compare_refl.
Qed.

Lemma strcmp_eq (s t : string) : strcmp s t = 0 <-> s = t.
Proof.
  split; [|intros ->; apply strcmp_refl].
  revert t. induction s as [|c s IH]; intros [|d t]; simpl;
    try reflexivity; try discriminate.
  destruct (uchar c ?= uchar d) eqn:E; try discriminate.
  intros H. apply Z.compare_eq in E. apply uchar_inj in E.
  f_equal; [exact E | now apply IH].
Qed.

Lemma strcmp_antisym (s t : string) : strcmp t s = - strcmp s t.
Proof.
  revert t. induction s as [|c s IH]; intros [|d t]; simpl; try reflexivity.
  rewrite (Z.compare_antisym (uchar c) (uchar d)).
  destruct (uchar c ?= uchar d); simpl; auto.
Qed.

Lemma strcmp_lt_iff (s t : string) : strcmp s t < 0 <-> lex_lt s t.
Proof.
  revert t. induction s as [|c s IH]; intros [|d t]; simpl.
  - split; [lia | inversion 1].
  - split; [constructor | lia].
  - split; [lia | inversion 1].
  - destruct (uchar c ?= uchar d) eqn:E.
    + apply Z.compare_eq in E. apply uchar_inj in E. subst d.
      rewrite IH. split; [apply lex_lt_tail|].
      inversion 1; subst; [lia | assumption].
    + rewrite Z.compare_lt_iff in E.
      split; [intros _; now apply lex_lt_byte | lia].
    + rewrite Z.compare_gt_iff in E.
      split; [lia|]. inversion 1; subst; [lia|lia].
Qed.

Lemma strcmp_le_iff (s t : string) : strcmp s t <= 0 <-> lex_le s t.
Proof.
  unfold lex_le. rewrite <- strcmp_lt_iff, <- strcmp_eq. lia.
Qed.

Lemma lex_lt_trans (s t u : string) : lex_lt s t -> lex_lt t u -> lex_lt s u.
Proof.
  intros H. revert u.
  induction H as [c t | c d s t Hcd | c s t Hst IH]; intros u Hu;
    inversion Hu; subst.
  - constructor.
  - constructor.
  - apply lex_lt_byte. lia.
  - now apply lex_lt_byte.
  - now apply lex_lt_byte.
  - apply lex_lt_tail. now apply IH.
Qed.

Lemma strcmp_trans (s t u : string) :
  strcmp s t <= 0 -> strcmp t u <= 0 -> strcmp s u <= 0.
Proof.
  rewrite !strcmp_le_iff. unfold lex_le.
  intros [-> | H1] [-> | H2]; auto.
  right. eapply lex_lt_trans; eassumption.
Qed.

(** ** dirent_compare *)

Lemma dirent_compare_listed (a b : dirent) :
  dirent_compare a b <= 0 <-> listed_before a b.
Proof.
  unfold dirent_compare, listed_before, is_dir.
  destruct (d_type a =? DT_DIR), (d_type b =? DT_DIR); simpl;
    rewrite ?strcmp_le_iff; intuition (try discriminate; try lia).
Qed.

Lemma dirent_compare_antisym (a b : dirent) :
  dirent_compare b a = - dirent_compare a b.
Proof.
  unfold dirent_compare.
  destruct (d_type a =? DT_DIR), (d_type b =? DT_DIR); simpl;
    try reflexivity; apply strcmp_antisym.
Qed.

Lemma dirent_compare_trans (a b c : dirent) :
  dirent_compare a b <= 0 -> dirent_compare b c <= 0 ->
  dirent_compare a c <= 0.
Proof.
  unfold dirent_compare.
  destruct (d_type a =? DT_DIR), (d_type b =? DT_DIR),
           (d_type c =? DT_DIR); simpl; try lia; apply strcmp_trans.
Qed.

Lemma dirent_compare_consistent : consistent dirent_compare.
Proof.
  split.
  - intros a b. rewrite (dirent_compare_antisym a b). lia.
  - apply dirent_compare_trans.
Qed.

Lemma dirent_compare_zero (a b : dirent) :
  dirent_compare a b = 0 <-> is_dir a = is_dir b /\ d_name a = d_name b.
Proof.
  unfold dirent_compare, is_dir.
  destruct (d_type a =? DT_DIR), (d_type b =? DT_DIR); simpl;
    rewrite ?strcmp_eq; intuition (try discriminate; try lia).
Qed.

(** ** insertion_sort meets the promise of qsort *)

Lemma insert_sorted_perm cmp x l : Permutation (x :: l) (insert_sorted cmp x l).
Proof.
  induction l as [|y l IH]; simpl; [apply Permutation_refl|].
  destruct (cmp x y <=? 0); [apply Permutation_refl|].
  eapply perm_trans; [apply perm_swap|]. now apply perm_skip.
Qed.

Lemma insert_sorted_ascending cmp x l :
  consistent cmp -> ascending cmp l -> ascending cmp (insert_sorted cmp x l).
Proof.
  intros [Hsym Htrans]. unfold ascending.
  induction 1 as [|y l Hl IH Hy]; simpl.
  - constructor; constructor.
  - destruct (cmp x y <=? 0) eqn:E.
    + apply Z.leb_le in E. constructor; [now constructor|].
      constructor; [exact E|].
      rewrite Forall_forall in Hy |- *. intros z Hz.
      eapply Htrans; [exact E | now apply Hy].
    + apply Z.leb_gt in E. constructor; [exact IH|].
      assert (Hyx : cmp y x <= 0) by (apply Hsym in E; lia).
      rewrite Forall_forall in Hy |- *. intros z Hz.
      apply (Permutation_in _ (Permutation_sym (insert_sorted_perm cmp x l)))
        in Hz.
      destruct Hz as [<- | Hz]; [exact Hyx | now apply Hy].
Qed.

Lemma insertion_sort_spec : qsort_spec insertion_sort.
Proof.
  intros cmp l Hc. unfold insertion_sort. split.
  - induction l as [|x l IH]; simpl; [apply Permutation_refl|].
    eapply perm_trans; [apply perm_skip, IH | apply insert_sorted_perm].
  - induction l as [|x l IH]; simpl; [constructor|].
    now apply insert_sorted_ascending.
Qed.

Section Sorting.

Variable qsort : (dirent -> dirent -> Z) -> list dirent -> list dirent.
Hypothesis qsort_ok : qsort_spec qsort.

Lemma sort_entries_perm (entries : list dirent) :
  Permutation entries (sort_entries qsort entries).
Proof.
  unfold sort_entries.
  eapply perm_trans; apply qsort_ok, dirent_compare_consistent.
Qed.

Lemma sort_entries_in (entries : list dirent) (dp : dirent) :
  In dp (sort_entries qsort entries) -> In dp entries.
Proof.
  apply Permutation_in, Permutation_sym, sort_entries_perm.
Qed.

Lemma sort_entries_listed (entries : list dirent) :
  StronglySorted listed_before (sort_entries qsort entries).
Proof.
  unfold sort_entries.
  destruct (qsort_ok dirent_compare (qsort dirent_compare entries)
              dirent_compare_consistent) as [_ Hs].
  unfold ascending in Hs.
  induction Hs as [|x l Hl IH Hx]; constructor; [exact IH|].
  rewrite Forall_forall in Hx |- *. intros y Hy.
  apply dirent_compare_listed. now apply Hx.
Qed.

End Sorting.

(** ** Directory streams *)

Lemma fresh_dir_not_open (w : world) : ~ In (fresh_dir w) (open_dirs w).
Proof.
  unfold fresh_dir. intros H.
  assert (Hle : Forall (fun k => (k <= list_max (open_dirs w))%nat)
                       (open_dirs w))
    by (apply list_max_le; lia).
  rewrite Forall_forall in Hle. apply Hle in H. lia.
Qed.

Lemma closedir_fresh (w : world) (out : list event) :
  closedir (fresh_dir w)
           (mkWorld out (stderr w) (fresh_dir w :: open_dirs w))
  = mkWorld out (stderr w) (open_dirs w).
Proof.
  unfold closedir. cbn [open_dirs stdout stderr]. f_equal.
  generalize (fresh_dir_not_open w). generalize (fresh_dir w). intros dir Hd.
  cbn [remove]. destruct (Nat.eq_dec dir dir) as [_|N]; [|now elim N].
  now apply notin_remove.
Qed.

(** ** The state a traversal leaves *)

Lemma printed_nil (w : world) : printed [] w = w.
Proof.
  destruct w. unfold printed, entry_lines. simpl. now rewrite app_nil_r.
Qed.

Lemma printed_app (v1 v2 : list dirent) (w : world) :
  printed v2 (printed v1 w) = printed (v1 ++ v2) w.
Proof.
  unfold printed, entry_lines. simpl. now rewrite map_app, app_assoc.
Qed.

Lemma printf_entry (dp : dirent) (w : world) :
  printf w (EntryLine (d_name dp)) = printed [dp] w.
Proof. reflexivity. Qed.

Lemma tally_app (v1 v2 : list dirent) (stats : summary) :
  tally (v1 ++ v2) stats = tally v2 (tally v1 stats).
Proof. unfold tally. apply fold_left_app. Qed.

Section Traversal.

Variable qsort : (dirent -> dirent -> Z) -> list dirent -> list dirent.
Variable fs : filesystem.

(** The loop of [processDir] visits what [walk_entries] lists, when the
    recursive call does. *)
Lemma visit_walk_entries
    (recurse : string -> summary -> world -> result (summary * world))
    (below : string -> result (list dirent)) :
  (forall name st w,
      recurse name st w =
      do vis <- below name ;; Ok (tally vis st, printed vis w)) ->
  forall entries st w,
    visit recurse entries st w =
    do vis <- walk_entries below entries ;; Ok (tally vis st, printed vis w).
Proof.
  intros Hrec. induction entries as [|dp rest IH]; intros st w; simpl.
  - now rewrite printed_nil.
  - destruct (descends dp).
    + rewrite Hrec. destruct (below (d_name dp)) as [v1| |]; simpl; auto.
      rewrite IH. destruct (walk_entries below rest) as [v2| |]; simpl; auto.
      rewrite printf_entry, !printed_app.
      change (tally (dp :: v1 ++ v2) st)
        with (tally (v1 ++ v2) (update_stats st dp)).
      now rewrite tally_app.
    + rewrite IH. destruct (walk_entries below rest) as [v2| |]; simpl; auto.
      rewrite printf_entry, printed_app. reflexivity.
Qed.

(** [processDir] adds the tally of the visited entries to the statistics,
    prints one line for each of them, and leaves the open streams as it
    found them. *)
Lemma processDir_walk (fuel : nat) :
  forall dn pstr stats flags w,
    processDir qsort fs fuel dn pstr stats flags w =
    do vis <- walk qsort fs fuel dn pstr ;;
    Ok (tally vis stats, printed vis w).
Proof.
  induction fuel as [|fuel IH]; intros dn pstr stats flags w; simpl;
    [reflexivity|].
  destruct (newPath pstr dn) as [path|]; [|reflexivity].
  unfold opendir. destruct (dir_stream fs path) as [stream|]; simpl.
  2: now rewrite printed_nil.
  destruct (INT_MAX <? _); [reflexivity|].
  destruct (_ =? 0).
  - simpl. rewrite printed_nil.
    destruct w as [out err open]. f_equal. f_equal.
    apply (closedir_fresh (mkWorld out err open) out).
  - rewrite (visit_walk_entries _ (fun name => walk qsort fs fuel name path)).
    2: { intros name st w'. apply IH. }
    destruct (walk_entries _ _) as [vis| |]; simpl; auto.
    f_equal. f_equal.
    apply (closedir_fresh w (stdout w ++ entry_lines vis)).
Qed.

Lemma processDir_Ok fuel dn pstr stats flags w stats' w' :
  processDir qsort fs fuel dn pstr stats flags w = Ok (stats', w') ->
  exists vis, walk qsort fs fuel dn pstr = Ok vis /\
              stats' = tally vis stats /\ w' = printed vis w.
Proof.
  rewrite processDir_walk. intros H.
  apply bind_Ok in H. destruct H as (vis & Hw & Hk).
  exists vis. inversion Hk; subst. auto.
Qed.

(** A run that did not exhaust its budget ends the same way with any
    larger one. *)
Lemma walk_entries_more_fuel
    (below1 below2 : string -> result (list dirent)) :
  (forall name, below1 name <> Timeout -> below2 name = below1 name) ->
  forall entries,
    walk_entries below1 entries <> Timeout ->
    walk_entries below2 entries = walk_entries below1 entries.
Proof.
  intros Hb. induction entries as [|dp rest IH]; simpl; [reflexivity|].
  destruct (descends dp).
  - destruct (below1 (d_name dp)) as [v| |] eqn:E1; simpl; intros H.
    + rewrite (Hb (d_name dp)), E1 by (rewrite E1; discriminate). simpl.
      destruct (walk_entries below1 rest) as [v2| |] eqn:E2; simpl in *.
      * now rewrite IH.
      * now rewrite IH.
      * now elim H.
    + now rewrite (Hb (d_name dp)), E1 by (rewrite E1; discriminate).
    + now elim H.
  - destruct (walk_entries below1 rest) as [v2| |] eqn:E2; simpl; intros H.
    + now rewrite IH.
    + now rewrite IH.
    + now elim H.
Qed.

Lemma walk_more_fuel (n : nat) :
  forall m dn pstr, (n <= m)%nat ->
    walk qsort fs n dn pstr <> Timeout ->
    walk qsort fs m dn pstr = walk qsort fs n dn pstr.
Proof.
  induction n as [|n IH]; intros m dn pstr Hle H; [now elim H|].
  destruct m as [|m]; [lia|]. simpl in *.
  destruct (newPath pstr dn) as [path|]; [|reflexivity].
  destruct (dir_stream fs path) as [stream|]; [|reflexivity].
  destruct (INT_MAX <? _); [reflexivity|].
  destruct (_ =? 0); [reflexivity|].
  apply walk_entries_more_fuel; [|exact H].
  intros name Hn. apply IH; [lia | exact Hn].
Qed.

Lemma processDir_more_fuel (n m : nat) dn pstr stats flags w :
  (n <= m)%nat ->
  processDir qsort fs n dn pstr stats flags w <> Timeout ->
  processDir qsort fs m dn pstr stats flags w
  = processDir qsort fs n dn pstr stats flags w.
Proof.
  intros Hle. rewrite !processDir_walk. intros H.
  rewrite (walk_more_fuel n m dn pstr Hle); [reflexivity|].
  intros Hw. rewrite Hw in H. now elim H.
Qed.

End Traversal.

(** ** The switch on d_type *)

(** Case analysis on the five comparisons of [d_type dp] with the counted
    types; the cases in which two of them hold are closed. *)
Ltac by_d_type dp :=
  destruct (d_type dp =? DT_REG) eqn:?E1; [apply Z.eqb_eq in E1|];
  destruct (d_type dp =? DT_DIR) eqn:?E2; try apply Z.eqb_eq in E2;
  destruct (d_type dp =? DT_LNK) eqn:?E3; try apply Z.eqb_eq in E3;
  destruct (d_type dp =? DT_FIFO) eqn:?E4; try apply Z.eqb_eq in E4;
  destruct (d_type dp =? DT_SOCK) eqn:?E5; try apply Z.eqb_eq in E5;
  try (exfalso; unfold DT_REG, DT_DIR, DT_LNK, DT_FIFO, DT_SOCK in *; lia).

Lemma update_stats_fields (stats : summary) (dp : dirent) :
  files (update_stats stats dp) =
    (if has_type DT_REG dp then (files stats + 1) mod UINT_RANGE
     else files stats) /\
  dirs (update_stats stats dp) =
    (if has_type DT_DIR dp then (dirs stats + 1) mod UINT_RANGE
     else dirs stats) /\
  links (update_stats stats dp) =
    (if has_type DT_LNK dp then (links stats + 1) mod UINT_RANGE
     else links stats) /\
  fifos (update_stats stats dp) =
    (if has_type DT_FIFO dp then (fifos stats + 1) mod UINT_RANGE
     else fifos stats) /\
  socks (update_stats stats dp) =
    (if has_type DT_SOCK dp then (socks stats + 1) mod UINT_RANGE
     else socks stats) /\
  size (update_stats stats dp) =
    (if has_type DT_REG dp then (size stats + d_reclen dp) mod ULLONG_RANGE
     else size stats) /\
  blocks (update_stats stats dp) = blocks stats.
Proof.
  unfold update_stats, has_type.
  by_d_type dp;
  simpl; repeat split; reflexivity.
Qed.

Lemma update_stats_uncounted (stats : summary) (dp : dirent) :
  counted dp = false -> update_stats stats dp = stats.
Proof.
  unfold counted, update_stats. intros H.
  repeat (apply orb_false_elim in H; destruct H as [H ?]).
  now repeat match goal with E : _ = false |- _ => rewrite E; clear E end.
Qed.

Lemma update_stats_in_range (stats : summary) (dp : dirent) :
  in_range stats -> in_range (update_stats stats dp).
Proof.
  unfold in_range.
  destruct (update_stats_fields stats dp)
    as (-> & -> & -> & -> & -> & -> & ->).
  intros (? & ? & ? & ? & ? & ? & ?).
  assert (0 < UINT_RANGE) by (unfold UINT_RANGE; lia).
  assert (0 < ULLONG_RANGE) by (unfold ULLONG_RANGE; lia).
  repeat split;
    match goal with
    | |- context [if ?b then _ else _] => destruct b
    | _ => idtac
    end; try lia; apply Z.mod_pos_bound; lia.
Qed.

Lemma summary_zero_in_range : in_range summary_zero.
Proof.
  unfold in_range, summary_zero, UINT_RANGE, ULLONG_RANGE. simpl. lia.
Qed.

Lemma tally_in_range (visited : list dirent) :
  forall stats, in_range stats -> in_range (tally visited stats).
Proof.
  induction visited as [|dp vis IH]; intros stats H; simpl; [exact H|].
  apply IH. now apply update_stats_in_range.
Qed.

Lemma count_type_cons (t : Z) (dp : dirent) (vis : list dirent) :
  count_type t (dp :: vis) =
  if has_type t dp then 1 + count_type t vis else count_type t vis.
Proof.
  unfold count_type. cbn [filter].
  destruct (has_type t dp); cbn [List.length]; lia.
Qed.

Lemma count_type_bounds (t : Z) (vis : list dirent) :
  0 <= count_type t vis <= Z.of_nat (List.length vis).
Proof.
  unfold count_type. pose proof (filter_length_le (has_type t) vis). lia.
Qed.

Lemma mod_step (R a n : Z) :
  0 < R -> ((a + 1) mod R + n) mod R = (a + (1 + n)) mod R.
Proof.
  intros HR. rewrite Z.add_mod_idemp_l by lia. f_equal. lia.
Qed.

(** Each counter advances by the number of visited entries of its type;
    [size] by their record lengths; [blocks] stays. *)
Lemma tally_fields (visited : list dirent) :
  forall stats, in_range stats ->
    files (tally visited stats) =
      (files stats + count_type DT_REG visited) mod UINT_RANGE /\
    dirs (tally visited stats) =
      (dirs stats + count_type DT_DIR visited) mod UINT_RANGE /\
    links (tally visited stats) =
      (links stats + count_type DT_LNK visited) mod UINT_RANGE /\
    fifos (tally visited stats) =
      (fifos stats + count_type DT_FIFO visited) mod UINT_RANGE /\
    socks (tally visited stats) =
      (socks stats + count_type DT_SOCK visited) mod UINT_RANGE /\
    size (tally visited stats) =
      (size stats + regular_reclen visited) mod ULLONG_RANGE /\
    blocks (tally visited stats) = blocks stats.
Proof.
  assert (HU : 0 < UINT_RANGE) by (unfold UINT_RANGE; lia).
  assert (HL : 0 < ULLONG_RANGE) by (unfold ULLONG_RANGE; lia).
  induction visited as [|dp vis IH]; intros stats Hr.
  - unfold count_type, regular_reclen, tally. simpl.
    destruct Hr as (? & ? & ? & ? & ? & ? & ?).
    rewrite !Z.add_0_r, !Z.mod_small by lia. repeat split; reflexivity.
  - change (tally (dp :: vis) stats) with (tally vis (update_stats stats dp)).
    destruct (IH _ (update_stats_in_range stats dp Hr))
      as (-> & -> & -> & -> & -> & -> & ->).
    destruct (update_stats_fields stats dp)
      as (-> & -> & -> & -> & -> & -> & ->).
    rewrite !count_type_cons.
    change (regular_reclen (dp :: vis))
      with (if has_type DT_REG dp then d_reclen dp + regular_reclen vis
            else regular_reclen vis).
    repeat split;
      match goal with
      | |- context [if ?b then _ else _] => destruct b
      | _ => idtac
      end; try reflexivity; try (apply mod_step; lia).
    rewrite Z.add_mod_idemp_l by lia. f_equal. lia.
Qed.

Lemma counted_cases (dp : dirent) :
  (counted dp = false /\ has_type DT_REG dp = false /\
   has_type DT_DIR dp = false /\ has_type DT_LNK dp = false /\
   has_type DT_FIFO dp = false /\ has_type DT_SOCK dp = false) \/
  (counted dp = true /\
   Z.b2z (has_type DT_REG dp) + Z.b2z (has_type DT_DIR dp) +
   Z.b2z (has_type DT_LNK dp) + Z.b2z (has_type DT_FIFO dp) +
   Z.b2z (has_type DT_SOCK dp) = 1).
Proof.
  unfold counted, has_type.
  by_d_type dp;
  simpl; intuition.
Qed.

(** The five counters together see exactly the entries of a counted type. *)
Lemma count_type_total (visited : list dirent) :
  count_type DT_REG visited + count_type DT_DIR visited +
  count_type DT_LNK visited + count_type DT_FIFO visited +
  count_type DT_SOCK visited
  = Z.of_nat (List.length (filter counted visited)).
Proof.
  induction visited as [|dp vis IH]; [reflexivity|].
  rewrite !count_type_cons. cbn [filter].
  destruct (counted_cases dp) as [(-> & -> & -> & -> & -> & ->) | (-> & H)].
  - exact IH.
  - cbn [List.length]. rewrite Nat2Z.inj_succ, <- IH.
    destruct (has_type DT_REG dp), (has_type DT_DIR dp),
             (has_type DT_LNK dp), (has_type DT_FIFO dp),
             (has_type DT_SOCK dp); simpl in H; lia.
Qed.

Lemma filter_counted_all (visited : list dirent) :
  Forall (fun dp => counted dp = true) visited ->
  filter counted visited = visited.
Proof.
  induction 1 as [|dp vis Hdp _ IH]; simpl; [reflexivity|].
  now rewrite Hdp, IH.
Qed.

(* ================================================================= *)
(** * The traversal and its statistics *)

(** C1 (the code departs from the claim). What [processDir] adds to
    [size] is the directory record length [d_reclen] of every visited
    regular file, not the file's length in bytes, and [blocks] is never
    changed; entries of the other types add nothing to either field. *)
Theorem C1_size_adds_record_length
    (qsort : (dirent -> dirent -> Z) -> list dirent -> list dirent)
    (fs : filesystem) (fuel : nat) (dn pstr : string) (stats : summary)
    (flags : Z) (w : world) (stats' : summary) (w' : world) :
  in_range stats ->
  processDir qsort fs fuel dn pstr stats flags w = Ok (stats', w') ->
  exists visited,
    walk qsort fs fuel dn pstr = Ok visited /\
    stdout w' = stdout w ++ entry_lines visited /\
    size stats' = (size stats + regular_reclen visited) mod ULLONG_RANGE /\
    blocks stats' = blocks stats.
Proof.
  intros Hr H. apply processDir_Ok in H. destruct H as (vis & Hw & -> & ->).
  exists vis. destruct (tally_fields vis stats Hr) as (_ & _ & _ & _ & _ & Hs & Hb).
  repeat split; assumption.
Qed.

(** On the tree [A/{b.txt, C/{d.txt}}], whose two files hold 1000 and 2000
    bytes in 8 blocks each, the run ends with [size = 64], twice the
    record length 32, and [blocks = 0]. *)
Lemma C1_sample_tree :
  lstat fs_sample "./A/b.txt" = Some (mkStat DT_REG 1000 8) /\
  lstat fs_sample "./A/C/d.txt" = Some (mkStat DT_REG 2000 8) /\
  processDir insertion_sort fs_sample 2 "A" "." summary_zero 0 world_init
    = Ok (sample_stats, mkWorld sample_output [] []) /\
  size sample_stats = 64 /\
  blocks sample_stats = 0 /\
  exists visited,
    walk insertion_sort fs_sample 2 "A" "." = Ok visited /\
    stdout (mkWorld sample_output [] [])
      = stdout world_init ++ entry_lines visited /\
    size sample_stats
      = (size summary_zero + regular_reclen visited) mod ULLONG_RANGE /\
    blocks sample_stats = blocks summary_zero.
Proof.
  assert (Hrun : processDir insertion_sort fs_sample 2 "A" "." summary_zero
                            0 world_init
                 = Ok (sample_stats, mkWorld sample_output [] []))
    by (vm_compute; reflexivity).
  repeat (split; [first [reflexivity | exact Hrun]|]).
  apply (C1_size_adds_record_length insertion_sort fs_sample 2 "A" "."
           summary_zero 0 world_init sample_stats
           (mkWorld sample_output [] [])).
  - apply summary_zero_in_range.
  - exact Hrun.
Defined.

(** C2 (counterexample). A directory of device nodes: two lines are
    printed and no counter moves. *)
Lemma C2_device_nodes_not_counted :
  processDir insertion_sort fs_devices 1 "dev" "/" summary_zero 0 world_init
  = Ok (summary_zero,
        mkWorld [EntryLine "null"; EntryLine "sda"] [] []) /\
  type_counts summary_zero <> Z.of_nat (List.length [EntryLine "null"; EntryLine "sda"]).
Proof.
  split; [vm_compute; reflexivity | vm_compute; discriminate].
Qed.

(** C2 (amended). In a traversal from a fresh accumulator every visited
    entry prints one line; an entry whose type is regular file, directory,
    link, fifo or socket advances the counter of that type by one (modulo
    2^32) and an entry of any other type advances none. So with fewer than
    2^32 printed lines the five counters add up to the number of lines of
    entries of those five types: at most the number of printed lines, and
    equal to it when every visited entry has one of the five types. *)
Theorem C2_counters_match_counted_lines
    (qsort : (dirent -> dirent -> Z) -> list dirent -> list dirent)
    (fs : filesystem) (fuel : nat) (dn pstr : string)
    (flags : Z) (w : world) (stats' : summary) (w' : world) :
  processDir qsort fs fuel dn pstr summary_zero flags w = Ok (stats', w') ->
  exists visited,
    walk qsort fs fuel dn pstr = Ok visited /\
    stdout w' = stdout w ++ entry_lines visited /\
    List.length (entry_lines visited) = List.length visited /\
    files stats' = count_type DT_REG visited mod UINT_RANGE /\
    dirs stats' = count_type DT_DIR visited mod UINT_RANGE /\
    links stats' = count_type DT_LNK visited mod UINT_RANGE /\
    fifos stats' = count_type DT_FIFO visited mod UINT_RANGE /\
    socks stats' = count_type DT_SOCK visited mod UINT_RANGE /\
    (Z.of_nat (List.length visited) < UINT_RANGE ->
       type_counts stats' = Z.of_nat (List.length (filter counted visited)) /\
       type_counts stats' <= Z.of_nat (List.length visited) /\
       (Forall (fun dp => counted dp = true) visited ->
        type_counts stats' = Z.of_nat (List.length visited))).
Proof.
  intros H. apply processDir_Ok in H. destruct H as (vis & Hw & -> & ->).
  exists vis.
  destruct (tally_fields vis summary_zero summary_zero_in_range)
    as (Hf & Hd & Hl & Hp & Hs & _ & _).
  simpl in Hf, Hd, Hl, Hp, Hs.
  repeat (split; [first [assumption | reflexivity
                         | unfold entry_lines; apply length_map]|]).
  intros Hlen.
  assert (Hsmall : forall t, count_type t vis mod UINT_RANGE = count_type t vis).
  { intros t. pose proof (count_type_bounds t vis). apply Z.mod_small. lia. }
  assert (Htot : type_counts (tally vis summary_zero)
                 = Z.of_nat (List.length (filter counted vis))).
  { unfold type_counts. rewrite Hf, Hd, Hl, Hp, Hs, !Hsmall.
    apply count_type_total. }
  split; [exact Htot|]. split.
  - rewrite Htot. pose proof (filter_length_le counted vis). lia.
  - intros Hall. rewrite Htot. now rewrite filter_counted_all.
Qed.

(** On the sample tree, three lines and counters that add up to three. *)
Lemma C2_sample_tree :
  processDir insertion_sort fs_sample 2 "A" "." summary_zero 0 world_init
    = Ok (sample_stats, mkWorld sample_output [] []) /\
  type_counts sample_stats = 3 /\
  exists visited,
    walk insertion_sort fs_sample 2 "A" "." = Ok visited /\
    stdout (mkWorld sample_output [] [])
      = stdout world_init ++ entry_lines visited /\
    List.length (entry_lines visited) = List.length visited /\
    files sample_stats = count_type DT_REG visited mod UINT_RANGE /\
    dirs sample_stats = count_type DT_DIR visited mod UINT_RANGE /\
    links sample_stats = count_type DT_LNK visited mod UINT_RANGE /\
    fifos sample_stats = count_type DT_FIFO visited mod UINT_RANGE /\
    socks sample_stats = count_type DT_SOCK visited mod UINT_RANGE /\
    (Z.of_nat (List.length visited) < UINT_RANGE ->
       type_counts sample_stats
         = Z.of_nat (List.length (filter counted visited)) /\
       type_counts sample_stats <= Z.of_nat (List.length visited) /\
       (Forall (fun dp => counted dp = true) visited ->
        type_counts sample_stats = Z.of_nat (List.length visited))).
Proof.
  assert (Hrun : processDir insertion_sort fs_sample 2 "A" "." summary_zero
                            0 world_init
                 = Ok (sample_stats, mkWorld sample_output [] []))
    by (vm_compute; reflexivity).
  split; [exact Hrun|]. split; [reflexivity|].
  apply (C2_counters_match_counted_lines insertion_sort fs_sample 2 "A" "."
           0 world_init sample_stats (mkWorld sample_output [] [])).
  exact Hrun.
Defined.

(* ================================================================= *)
(** * Sibling order *)

(** C3. The order [processDir] sorts siblings by is a total order on
    (directory or not, name): [dirent_compare] decides [listed_before],
    where every directory comes before every non-directory and two entries
    of the same group are ordered by byte-wise lexicographic comparison of
    their names; it is total, transitive, and antisymmetric up to group and
    name. The list handed to the visiting loop is a rearrangement of the
    entries read in which every entry is [listed_before] all later ones. *)
Theorem C3_siblings_sorted
    (qsort : (dirent -> dirent -> Z) -> list dirent -> list dirent) :
  qsort_spec qsort ->
  (forall a b, dirent_compare a b <= 0 <-> listed_before a b) /\
  (forall a b, is_dir a = true -> is_dir b = false ->
               listed_before a b /\ ~ listed_before b a) /\
  (forall a b, is_dir a = is_dir b ->
               (listed_before a b <-> lex_le (d_name a) (d_name b))) /\
  (forall a b, listed_before a b \/ listed_before b a) /\
  (forall a b c, listed_before a b -> listed_before b c -> listed_before a c) /\
  (forall a b, listed_before a b -> listed_before b a ->
               is_dir a = is_dir b /\ d_name a = d_name b) /\
  (forall entries,
      Permutation entries (sort_entries qsort entries) /\
      StronglySorted listed_before (sort_entries qsort entries)).
Proof.
  intros Hq. split; [apply dirent_compare_listed|].
  split.
  { intros a b Ha Hb. unfold listed_before. rewrite Ha, Hb.
    split; [split; [auto | discriminate] | intros [H _]; now specialize (H eq_refl)]. }
  split.
  { intros a b Hab. unfold listed_before. rewrite Hab.
    split; [intros [_ H]; now apply H | intros H; split; auto]. }
  split.
  { intros a b. rewrite <- !dirent_compare_listed.
    rewrite (dirent_compare_antisym a b). lia. }
  split.
  { intros a b c. rewrite <- !dirent_compare_listed.
    apply dirent_compare_trans. }
  split.
  { intros a b. rewrite <- !dirent_compare_listed.
    rewrite (dirent_compare_antisym a b). intros H1 H2.
    apply dirent_compare_zero. lia. }
  intros entries. split.
  - now apply sort_entries_perm.
  - now apply sort_entries_listed.
Qed.

(** Four siblings: the two directories come first, [C] before [a] as
    byte 67 is below byte 97, then the link and the file by name. *)
Lemma C3_sample_siblings :
  let entries := [mkDirent DT_REG 32 "b.txt"; mkDirent DT_DIR 24 "a";
                  mkDirent DT_LNK 24 "Z"; mkDirent DT_DIR 24 "C"] in
  sort_entries insertion_sort entries
  = [mkDirent DT_DIR 24 "C"; mkDirent DT_DIR 24 "a";
     mkDirent DT_LNK 24 "Z"; mkDirent DT_REG 32 "b.txt"] /\
  Permutation entries (sort_entries insertion_sort entries) /\
  StronglySorted listed_before (sort_entries insertion_sort entries).
Proof.
  intros entries. split; [vm_compute; reflexivity|].
  apply (C3_siblings_sorted insertion_sort insertion_sort_spec).
Defined.

(* ================================================================= *)
(** * Where the entry type comes from *)

(** C4 (counterexample). In [fs_untyped] the directory records carry
    [DT_UNKNOWN] although [notes] is a regular file and [sub] a directory.
    Both are printed, no field of the statistics changes (there is no
    bucket that takes them), and [sub] is not entered. *)
Lemma C4_untyped_entries_in_no_bucket :
  lstat fs_untyped "./u/notes" = Some (mkStat DT_REG 1000 8) /\
  lstat fs_untyped "./u/sub" = Some (mkStat DT_DIR 4096 8) /\
  processDir insertion_sort fs_untyped 2 "u" "." summary_zero 0 world_init
  = Ok (summary_zero, mkWorld [EntryLine "notes"; EntryLine "sub"] [] []).
Proof.
  split; [reflexivity|]. split; [reflexivity | vm_compute; reflexivity].
Qed.

(** C4 (amended). The type of an entry is the [d_type] field of its
    directory record and nothing else: two file systems whose directories
    list the same records give the same run, whatever [lstat] would report
    in them. An entry whose [d_type] is none of the five counted types is
    printed, leaves every field of the statistics as it was, is not
    descended into, and the loop goes on with its siblings. *)
Theorem C4_type_from_directory_record
    (qsort : (dirent -> dirent -> Z) -> list dirent -> list dirent)
    (fs1 fs2 : filesystem) :
  (forall path, dir_stream fs1 path = dir_stream fs2 path) ->
  (forall fuel dn pstr stats flags w,
      processDir qsort fs1 fuel dn pstr stats flags w =
      processDir qsort fs2 fuel dn pstr stats flags w) /\
  (forall recurse dp rest stats w,
      counted dp = false ->
      visit recurse (dp :: rest) stats w =
      visit recurse rest stats (printf w (EntryLine (d_name dp)))).
Proof.
  intros Hfs. split.
  - induction fuel as [|fuel IH]; intros dn pstr stats flags w; simpl;
      [reflexivity|].
    destruct (newPath pstr dn) as [path|]; [|reflexivity].
    unfold opendir. rewrite Hfs.
    destruct (dir_stream fs2 path) as [stream|]; [|reflexivity].
    destruct (INT_MAX <? _); [reflexivity|].
    destruct (_ =? 0); [reflexivity|].
    f_equal.
    generalize (sort_entries qsort (filter not_dot stream)).
    generalize (mkWorld (stdout w) (stderr w) (fresh_dir w :: open_dirs w)).
    intros w1 l. revert stats w1.
    induction l as [|dp rest IHl]; intros stats w1; simpl; [reflexivity|].
    destruct (descends dp); [|apply IHl].
    rewrite IH. destruct (processDir qsort fs2 fuel _ _ _ _ _) as [[s2 w2]| |];
      simpl; auto.
  - intros recurse dp rest stats w Hc. simpl.
    rewrite (update_stats_uncounted stats dp Hc).
    assert (Hd : descends dp = false).
    { unfold descends. unfold counted in Hc.
      repeat (apply orb_false_elim in Hc; destruct Hc as [Hc ?]).
      now replace (d_type dp =? DT_DIR) with false. }
    now rewrite Hd.
Qed.

(** [fs_untyped] and the file system with the same directories in which
    every [lstat] fails are told apart by no run. *)
Lemma C4_same_records_same_run :
  (forall fuel dn pstr stats flags w,
      processDir insertion_sort fs_untyped fuel dn pstr stats flags w =
      processDir insertion_sort
        (mkFs (dir_stream fs_untyped) (fun _ => None))
        fuel dn pstr stats flags w) /\
  (forall recurse dp rest stats w,
      counted dp = false ->
      visit recurse (dp :: rest) stats w =
      visit recurse rest stats (printf w (EntryLine (d_name dp)))).
Proof.
  apply (C4_type_from_directory_record insertion_sort fs_untyped
           (mkFs (dir_stream fs_untyped) (fun _ => None))).
  intros path. reflexivity.
Defined.

(* ================================================================= *)
(** * Several roots *)

Lemma add_summary_in_range (tstat dstat : summary) :
  in_range (add_summary tstat dstat).
Proof.
  assert (0 < UINT_RANGE) by (unfold UINT_RANGE; lia).
  assert (0 < ULLONG_RANGE) by (unfold ULLONG_RANGE; lia).
  unfold in_range, add_summary. simpl.
  repeat split; apply Z.mod_pos_bound; lia.
Qed.

Lemma add_summary_zero (tstat : summary) :
  in_range tstat -> add_summary tstat summary_zero = tstat.
Proof.
  intros (? & ? & ? & ? & ? & ? & ?). destruct tstat. unfold add_summary.
  simpl in *. rewrite !Z.add_0_r, !Z.mod_small by lia. reflexivity.
Qed.

Section Roots.

Variable qsort : (dirent -> dirent -> Z) -> list dirent -> list dirent.
Variable libgen : string -> string * option string.
Variable fs : filesystem.

(** The running total after the loop is the total before it plus the
    statistics of every root, field by field. *)
Lemma process_directories_total (fuel : nat) (flags : Z) :
  forall directories tstat0 w tstat w',
    in_range tstat0 ->
    process_directories qsort libgen fs fuel flags directories tstat0 w
      = Ok (tstat, w') ->
    exists per_root,
      Forall2 (root_summary qsort libgen fs fuel flags) directories per_root /\
      Forall in_range per_root /\
      dirs tstat = (dirs tstat0 + sum_field dirs per_root) mod UINT_RANGE /\
      files tstat = (files tstat0 + sum_field files per_root) mod UINT_RANGE /\
      links tstat = (links tstat0 + sum_field links per_root) mod UINT_RANGE /\
      fifos tstat = (fifos tstat0 + sum_field fifos per_root) mod UINT_RANGE /\
      socks tstat = (socks tstat0 + sum_field socks per_root) mod UINT_RANGE /\
      size tstat = (size tstat0 + sum_field size per_root) mod ULLONG_RANGE /\
      blocks tstat
        = (blocks tstat0 + sum_field blocks per_root) mod ULLONG_RANGE.
Proof.
  assert (HU : 0 < UINT_RANGE) by (unfold UINT_RANGE; lia).
  assert (HL : 0 < ULLONG_RANGE) by (unfold ULLONG_RANGE; lia).
  induction directories as [|d rest IH]; intros tstat0 w tstat w' Hr H.
  - simpl in H. inversion H; subst. exists []. simpl.
    destruct Hr as (? & ? & ? & ? & ? & ? & ?).
    rewrite !Z.add_0_r, !Z.mod_small by lia.
    repeat split; constructor.
  - cbn [process_directories] in H.
    destruct (libgen d) as [leaf parent] eqn:El.
    apply bind_Ok in H. destruct H as ([dstat w2] & Hrun & H).
    apply IH in H; [|apply add_summary_in_range].
    destruct H as (per & Hper & Hin & Hd & Hf & Hl & Hp & Hs & Hz & Hb).
    exists (dstat :: per).
    split.
    { constructor; [|exact Hper]. unfold root_summary. rewrite El.
      cbn [fst snd]. intros w1.
      destruct (processDir_Ok _ _ _ _ _ _ _ _ _ _ Hrun) as (vis & Hv & -> & _).
      exists (printed vis w1). now rewrite processDir_walk, Hv. }
    split.
    { constructor; [|exact Hin].
      apply processDir_Ok in Hrun. destruct Hrun as (vis & _ & -> & _).
      apply tally_in_range, summary_zero_in_range. }
    simpl in Hd, Hf, Hl, Hp, Hs, Hz, Hb.
    rewrite Hd, Hf, Hl, Hp, Hs, Hz, Hb. simpl.
    rewrite !Z.add_mod_idemp_l by lia.
    repeat split; f_equal; lia.
Qed.

(** A root whose directory cannot be opened: [processDir] returns at
    once, the accumulator and the output untouched, and the loop goes on
    with the roots that follow. *)
Lemma processDir_unavailable (fuel : nat) dn pstr path stats flags w :
  newPath pstr dn = Some path ->
  dir_stream fs path = None ->
  processDir qsort fs (S fuel) dn pstr stats flags w = Ok (stats, w).
Proof.
  intros Hp Hd. simpl. rewrite Hp. unfold opendir. now rewrite Hd.
Qed.

Lemma unavailable_root_skipped (fuel : nat) flags d rest tstat w path :
  in_range tstat ->
  newPath (parent_path (snd (libgen d))) (fst (libgen d)) = Some path ->
  dir_stream fs path = None ->
  process_directories qsort libgen fs (S fuel) flags (d :: rest) tstat w =
  process_directories qsort libgen fs (S fuel) flags rest tstat
    (if flag_set flags F_SUMMARY
     then printf (printf w (DirectoryHeader d)) (DirectorySummary summary_zero)
     else w).
Proof.
  intros Hr Hp Hd. cbn [process_directories].
  destruct (libgen d) as [leaf parent]. cbn [fst snd] in Hp.
  rewrite (processDir_unavailable fuel _ _ _ _ _ _ Hp Hd).
  cbn [bind]. rewrite (add_summary_zero _ Hr).
  now destruct (flag_set flags F_SUMMARY).
Qed.

End Roots.

Lemma sum_field_nonneg (f : summary -> Z) (per_root : list summary) :
  (forall s, in_range s -> 0 <= f s) ->
  Forall in_range per_root -> 0 <= sum_field f per_root.
Proof.
  intros Hf. induction 1 as [|s l Hs _ IH]; simpl; [lia|].
  specialize (Hf s Hs). lia.
Qed.

Lemma sums_to_intro (range total parts : Z) :
  0 <= parts -> total = (0 + parts) mod range -> sums_to range total parts.
Proof.
  intros Hp ->. rewrite Z.add_0_l. split; [reflexivity|].
  intros Hlt. apply Z.mod_small. lia.
Qed.

(** C5. After the loop over the roots, every field of the grand total is
    the sum of that field over the per-root accumulators, each of them
    filled by [processDir] from zero: the sum as the unsigned field holds
    it, which is the sum itself whenever it fits the field. *)
Theorem C5_grand_total_is_sum
    (qsort : (dirent -> dirent -> Z) -> list dirent -> list dirent)
    (libgen : string -> string * option string) (fs : filesystem)
    (fuel : nat) (flags : Z) (directories : list string) (w : world)
    (tstat : summary) (w' : world) :
  process_directories qsort libgen fs fuel flags directories summary_zero w
    = Ok (tstat, w') ->
  exists per_root,
    Forall2 (root_summary qsort libgen fs fuel flags) directories per_root /\
    sums_to UINT_RANGE (files tstat) (sum_field files per_root) /\
    sums_to UINT_RANGE (dirs tstat) (sum_field dirs per_root) /\
    sums_to UINT_RANGE (links tstat) (sum_field links per_root) /\
    sums_to UINT_RANGE (fifos tstat) (sum_field fifos per_root) /\
    sums_to UINT_RANGE (socks tstat) (sum_field socks per_root) /\
    sums_to ULLONG_RANGE (size tstat) (sum_field size per_root) /\
    sums_to ULLONG_RANGE (blocks tstat) (sum_field blocks per_root).
Proof.
  intros H.
  apply process_directories_total in H; [|apply summary_zero_in_range].
  destruct H as (per & Hper & Hin & Hd & Hf & Hl & Hp & Hs & Hz & Hb).
  exists per. split; [exact Hper|].
  repeat split; try (apply sums_to_intro; [|assumption]);
    apply sum_field_nonneg; try assumption;
    intros s (? & ? & ? & ? & ? & ? & ?); lia.
Qed.

(** Two roots, [A] of the sample tree and [nope], which does not exist. *)
Lemma C5_two_roots :
  exists per_root,
    Forall2 (root_summary insertion_sort libgen_plain fs_sample 2 F_SUMMARY)
            ["A"; "nope"]%string per_root /\
    sums_to UINT_RANGE (files sample_stats) (sum_field files per_root) /\
    sums_to UINT_RANGE (dirs sample_stats) (sum_field dirs per_root) /\
    sums_to UINT_RANGE (links sample_stats) (sum_field links per_root) /\
    sums_to UINT_RANGE (fifos sample_stats) (sum_field fifos per_root) /\
    sums_to UINT_RANGE (socks sample_stats) (sum_field socks per_root) /\
    sums_to ULLONG_RANGE (size sample_stats) (sum_field size per_root) /\
    sums_to ULLONG_RANGE (blocks sample_stats) (sum_field blocks per_root).
Proof.
  apply (C5_grand_total_is_sum insertion_sort libgen_plain fs_sample 2
           F_SUMMARY ["A"; "nope"]%string world_init sample_stats
           (mkWorld (DirectoryHeader "A" :: sample_output
                     ++ [DirectorySummary sample_stats;
                         DirectoryHeader "nope";
                         DirectorySummary summary_zero]) [] [])).
  vm_compute. reflexivity.
Defined.

(* ================================================================= *)
(** * A root that cannot be opened *)

Lemma newPath_long_parent : newPath long_parent "b" = None.
Proof. vm_compute. reflexivity. Qed.

Lemma split_last_replicate (n : nat) :
  split_last (replicate n "a" ++ "/b") = Some (replicate n "a", "b"%string).
Proof.
  induction n as [|n IH]; [reflexivity|].
  cbn [replicate String.append split_last]. now rewrite IH.
Qed.

Lemma libgen_plain_long_root :
  libgen_plain long_root = ("b"%string, Some long_parent).
Proof.
  unfold libgen_plain, long_root, long_parent.
  rewrite split_last_replicate.
  assert (H : Z.to_nat USHRT_RANGE <> 0%nat) by (unfold USHRT_RANGE; lia).
  destruct (Z.to_nat USHRT_RANGE) as [|n]; [now elim H | reflexivity].
Qed.

(** C6 (the code departs from the claim). A root whose parent part is
    65536 bytes long names no directory that could be opened. Its length
    is stored in an [unsigned short] as 0, three bytes are allocated for
    the path, and [strcpy] writes past them: the run does not return from
    [processDir], prints no summary for this root and never reaches the
    roots that follow. *)
Theorem C6_over_long_root_faults
    (qsort : (dirent -> dirent -> Z) -> list dirent -> list dirent)
    (fs : filesystem) (fuel : nat) (flags : Z) (rest : list string)
    (tstat : summary) (w : world) :
  Z.of_nat (String.length long_parent) mod USHRT_RANGE = 0 /\
  processDir qsort fs (S fuel) "b" long_parent summary_zero flags w = Fault /\
  process_directories qsort libgen_plain fs (S fuel) flags
                      (long_root :: rest) tstat w = Fault.
Proof.
  split; [vm_compute; reflexivity|].
  assert (H : forall w0, processDir qsort fs (S fuel) "b" long_parent
                                    summary_zero flags w0 = Fault).
  { intros w0. cbn [processDir]. now rewrite newPath_long_parent. }
  split; [apply H|].
  cbn [process_directories]. rewrite libgen_plain_long_root.
  cbn [parent_path]. now rewrite H.
Qed.

(* ================================================================= *)
(** * Recursion follows directories only *)

Lemma descends_is_dir (dp : dirent) : descends dp = true -> d_type dp = DT_DIR.
Proof.
  unfold descends. intros H.
  apply andb_prop in H. destruct H as [H _].
  apply andb_prop in H. destruct H as [H _].
  now apply Z.eqb_eq.
Qed.

Lemma descends_not_dot (dp : dirent) : descends dp = true -> not_dot dp = true.
Proof.
  unfold descends, not_dot. intros H.
  apply andb_prop in H. destruct H as [H H1].
  apply andb_prop in H. destruct H as [_ H2].
  apply negb_true_iff in H1, H2. now rewrite H1, H2.
Qed.

Section Depth.

Variable qsort : (dirent -> dirent -> Z) -> list dirent -> list dirent.
Variable fs : filesystem.
Hypothesis qsort_ok : qsort_spec qsort.

Lemma nesting_below_mono (n : nat) :
  forall m dn pstr, (n <= m)%nat ->
    nesting_below fs n dn pstr -> nesting_below fs m dn pstr.
Proof.
  induction n as [|n IH]; intros m dn pstr Hle H; [destruct H|].
  destruct m as [|m]; [lia|]. simpl in *.
  destruct (newPath pstr dn) as [path|]; [|exact I].
  destruct (dir_stream fs path) as [stream|]; [|exact I].
  intros dp Hin Hd. apply IH; [lia | now apply H].
Qed.

Lemma walk_entries_returns (below : string -> result (list dirent))
    (entries : list dirent) :
  (forall dp, In dp entries -> descends dp = true ->
              below (d_name dp) <> Timeout) ->
  walk_entries below entries <> Timeout.
Proof.
  induction entries as [|dp rest IH]; intros H; simpl; [discriminate|].
  assert (Hrest : walk_entries below rest <> Timeout)
    by (apply IH; intros e He; apply H; now right).
  destruct (descends dp) eqn:Hd.
  - specialize (H dp (or_introl eq_refl) Hd).
    destruct (below (d_name dp)); simpl; try congruence.
    destruct (walk_entries below rest); simpl; congruence.
  - destruct (walk_entries below rest); simpl; congruence.
Qed.

(** The budget a run needs is the nesting depth of the directories. *)
Lemma walk_returns (n : nat) :
  forall dn pstr, nesting_below fs n dn pstr ->
                  walk qsort fs n dn pstr <> Timeout.
Proof.
  induction n as [|n IH]; intros dn pstr H; [destruct H|]. simpl in *.
  destruct (newPath pstr dn) as [path|]; [|discriminate].
  destruct (dir_stream fs path) as [stream|]; [|discriminate].
  destruct (INT_MAX <? _); [discriminate|].
  destruct (_ =? 0); [discriminate|].
  apply walk_entries_returns. intros dp Hin Hd.
  apply IH, H; [|exact Hd].
  apply (sort_entries_in qsort qsort_ok) in Hin.
  now apply filter_In in Hin.
Qed.

Lemma runs_within_mono (n : nat) :
  forall m dn pstr, (n <= m)%nat ->
    runs_within fs n dn pstr -> runs_within fs m dn pstr.
Proof.
  induction n as [|n IH]; intros m dn pstr Hle H; [destruct H|].
  destruct m as [|m]; [lia|]. simpl in *.
  destruct (newPath pstr dn) as [path|]; [|exact H].
  destruct (dir_stream fs path) as [stream|]; [|exact I].
  destruct H as [Hc H]. split; [exact Hc|].
  intros dp Hin Hd. apply IH; [lia | now apply H].
Qed.

Lemma walk_entries_total (below : string -> result (list dirent))
    (entries : list dirent) :
  (forall dp, In dp entries -> descends dp = true ->
              exists vis, below (d_name dp) = Ok vis) ->
  exists vis, walk_entries below entries = Ok vis.
Proof.
  induction entries as [|dp rest IH]; intros H; simpl; [now exists []|].
  destruct IH as [after Ha]; [intros e He; apply H; now right|].
  rewrite Ha. destruct (descends dp) eqn:Hd.
  - destruct (H dp (or_introl eq_refl) Hd) as [sub Hs]. rewrite Hs.
    simpl. eexists. reflexivity.
  - simpl. eexists. reflexivity.
Qed.

Lemma walk_total (n : nat) :
  forall dn pstr, runs_within fs n dn pstr ->
                  exists vis, walk qsort fs n dn pstr = Ok vis.
Proof.
  induction n as [|n IH]; intros dn pstr H; [destruct H|]. simpl in *.
  destruct (newPath pstr dn) as [path|]; [|destruct H].
  destruct (dir_stream fs path) as [stream|]; [|now exists []].
  destruct H as [Hc H].
  replace (INT_MAX <? Z.of_nat (List.length (filter not_dot stream)))
    with false by (symmetry; apply Z.ltb_ge; exact Hc).
  destruct (_ =? 0); [now exists []|].
  apply walk_entries_total. intros dp Hin Hd.
  apply IH, H; [|exact Hd].
  apply (sort_entries_in qsort qsort_ok) in Hin.
  now apply filter_In in Hin.
Qed.

(** Enough budget gives the result: a run over a tree that lies within
    [n] levels returns for every budget from [n] on. *)
Lemma processDir_returns (n fuel : nat) dn pstr stats flags w :
  runs_within fs n dn pstr -> (n <= fuel)%nat ->
  exists visited,
    walk qsort fs fuel dn pstr = Ok visited /\
    processDir qsort fs fuel dn pstr stats flags w
    = Ok (tally visited stats, printed visited w).
Proof.
  intros H Hle. apply (runs_within_mono n fuel) in H; [|exact Hle].
  destruct (walk_total fuel dn pstr H) as [vis Hv].
  exists vis. split; [exact Hv|]. now rewrite processDir_walk, Hv.
Qed.

End Depth.

(** C7. The loop calls [processDir] again for no entry whose type is not
    directory: such an entry is printed and counted and the loop moves on,
    whatever the recursive call would do. So the depth of the recursion is
    the nesting depth of the entries typed directory alone: when these nest
    fewer than [n] levels, no run with a budget of at least [n] runs out of
    budget, however the symbolic links of the tree point; and when moreover
    no composed path outgrows its allocation and no directory holds more
    entries than an [int] counts ([runs_within]), the run of the model
    returns. *)
Theorem C7_only_directories_entered
    (qsort : (dirent -> dirent -> Z) -> list dirent -> list dirent)
    (fs : filesystem) (n : nat) (dn pstr : string) :
  qsort_spec qsort ->
  nesting_below fs n dn pstr ->
  (forall recurse dp rest stats w,
      d_type dp <> DT_DIR ->
      visit recurse (dp :: rest) stats w =
      visit recurse rest (update_stats stats dp)
            (printf w (EntryLine (d_name dp)))) /\
  (forall fuel stats flags w,
      (n <= fuel)%nat ->
      processDir qsort fs fuel dn pstr stats flags w <> Timeout) /\
  (runs_within fs n dn pstr ->
   forall fuel stats flags w,
     (n <= fuel)%nat ->
     exists stats' w',
       processDir qsort fs fuel dn pstr stats flags w = Ok (stats', w')).
Proof.
  intros Hq Hn. split; [|split].
  - intros recurse dp rest stats w Ht. simpl.
    destruct (descends dp) eqn:Hd; [|reflexivity].
    apply descends_is_dir in Hd. contradiction.
  - intros fuel stats flags w Hle. rewrite processDir_walk.
    pose proof (walk_returns qsort fs Hq fuel dn pstr
                  (nesting_below_mono fs n fuel dn pstr Hle Hn)) as Hw.
    destruct (walk qsort fs fuel dn pstr) as [vis| |]; simpl;
      [discriminate | discriminate | now elim Hw].
  - intros Hr fuel stats flags w Hle.
    destruct (processDir_returns qsort fs Hq n fuel dn pstr stats flags w
                Hr Hle) as (vis & _ & Hrun).
    eexists _, _. exact Hrun.
Qed.

(** No entry of [fs_loop] is typed directory. *)
Lemma fs_loop_nesting : nesting_below fs_loop 1 "d" ".".
Proof.
  simpl. intros dp [<- | [<- | [<- | []]]]; vm_compute; discriminate.
Defined.

Lemma fs_loop_within : runs_within fs_loop 1 "d" ".".
Proof.
  simpl. split; [vm_compute; discriminate|].
  intros dp [<- | [<- | [<- | []]]]; vm_compute; discriminate.
Defined.

(** In [fs_loop] the link [loop] leads back to its own directory, so that
    [./d], [./d/loop], [./d/loop/loop], ... all open. The run prints the
    link once and returns, under every budget. *)
Lemma C7_symlink_cycle :
  dir_stream fs_loop "./d/loop/loop" = dir_stream fs_loop "./d" /\
  processDir insertion_sort fs_loop 1 "d" "." summary_zero 0 world_init
  = Ok (mkSummary 0 0 1 0 0 0 0, mkWorld [EntryLine "loop"] [] []) /\
  (forall recurse dp rest stats w,
      d_type dp <> DT_DIR ->
      visit recurse (dp :: rest) stats w =
      visit recurse rest (update_stats stats dp)
            (printf w (EntryLine (d_name dp)))) /\
  (forall fuel stats flags w,
      (1 <= fuel)%nat ->
      processDir insertion_sort fs_loop fuel "d" "." stats flags w
      <> Timeout) /\
  (forall fuel stats flags w,
     (1 <= fuel)%nat ->
     exists stats' w',
       processDir insertion_sort fs_loop fuel "d" "." stats flags w
       = Ok (stats', w')).
Proof.
  split; [reflexivity|]. split; [vm_compute; reflexivity|].
  destruct (C7_only_directories_entered insertion_sort fs_loop 1 "d" "."
              insertion_sort_spec fs_loop_nesting) as (H1 & H2 & H3).
  split; [exact H1|]. split; [exact H2|]. exact (H3 fs_loop_within).
Defined.

(* ================================================================= *)
(** * Path composition *)

Lemma string_length_append (s t : string) :
  String.length (s ++ t) = (String.length s + String.length t)%nat.
Proof. induction s as [|c s IH]; simpl; [reflexivity | now rewrite IH]. Qed.

Lemma string_append_assoc (s t u : string) :
  ((s ++ t) ++ u = s ++ t ++ u)%string.
Proof. induction s as [|c s IH]; simpl; [reflexivity | now rewrite IH]. Qed.

(** The byte at the last index decides whether [stem] drops it. *)
Lemma stem_last_byte (s : string) :
  forall c,
    let p := String c s in
    match String.get (String.length s) p with
    | Some x => if Ascii.eqb x "/" then p = (stem p ++ "/")%string
                else stem p = p
    | None => False
    end.
Proof.
  induction s as [|d s IH]; intros c p; subst p.
  - simpl. destruct (Ascii.eqb_spec c "/") as [->|N]; reflexivity.
  - specialize (IH d). cbv zeta in IH.
    change (String.get (String.length (String d s)) (String c (String d s)))
      with (String.get (String.length s) (String d s)).
    change (stem (String c (String d s)))
      with (String c (stem (String d s))).
    destruct (String.get (String.length s) (String d s)) as [x|]; [|exact IH].
    destruct (Ascii.eqb x "/"); cbn [String.append]; f_equal; exact IH.
Qed.

(** With an empty parent the composed path is the child alone: line 129
    adds a separator only behind a parent that is not empty. Neither
    [main] nor the recursion passes an empty parent. *)
Example newPath_empty_parent :
  newPath "" "a" = Some "a"%string /\
  joined "" "a" = "/a"%string /\
  newPath "" "a" <> Some (joined "" "a").
Proof.
  split; [reflexivity|]. split; [reflexivity | discriminate].
Qed.

(** What lines 128-133 compute from a parent and a child shorter than
    65536 bytes each: behind a parent that is not empty, the stem of the
    parent, a separator and the child; for an empty parent the child
    alone. *)
Lemma newPath_short (pstr dn : string) :
  Z.of_nat (String.length pstr) < USHRT_RANGE ->
  Z.of_nat (String.length dn) < USHRT_RANGE ->
  newPath pstr dn =
  Some (if String.eqb pstr "" then dn else joined pstr dn).
Proof.
  intros Hp Hd. unfold newPath, joined.
  rewrite !Z.mod_small by lia.
  destruct pstr as [|c s].
  - simpl. destruct (_ <=? _) eqn:E; [reflexivity|].
    apply Z.leb_gt in E. lia.
  - replace (Z.to_nat (Z.of_nat (String.length (String c s)) - 1))
      with (String.length s) by (simpl String.length; lia).
    replace (0 <? Z.of_nat (String.length (String c s))) with true
      by (symmetry; apply Z.ltb_lt; simpl String.length; lia).
    pose proof (stem_last_byte s c) as Hs. cbv zeta in Hs.
    change (String.eqb (String c s) "") with false. cbv iota.
    destruct (String.get (String.length s) (String c s)) as [x|];
      [|destruct Hs].
    destruct (Ascii.eqb x "/"); cbn [andb negb].
    + assert (Hpath : (String c s ++ "" ++ dn)%string
                      = (stem (String c s) ++ "/" ++ dn)%string).
      { change ("" ++ dn)%string with dn.
        transitivity ((stem (String c s) ++ "/") ++ dn)%string;
          [now rewrite <- Hs | apply string_append_assoc]. }
      destruct (_ <=? _) eqn:E; [now rewrite Hpath|]. apply Z.leb_gt in E.
      rewrite !string_length_append in E. simpl String.length in E. lia.
    + rewrite Hs.
      destruct (_ <=? _) eqn:E; [reflexivity|]. apply Z.leb_gt in E.
      rewrite !string_length_append in E. simpl String.length in E. lia.
Qed.

(** A parent with and without a final separator gives the same path. *)
Example newPath_sample_paths :
  newPath "./A" "C" = Some "./A/C"%string /\
  newPath "./A/" "C" = Some "./A/C"%string.
Proof. split; reflexivity. Qed.

Lemma stem_cases (parent : string) :
  parent = stem parent \/ parent = (stem parent ++ "/")%string.
Proof.
  induction parent as [|c rest IH]; [now left|].
  destruct rest as [|d rest].
  - cbn [stem]. destruct (Ascii.eqb_spec c "/") as [->|N];
      [now right | now left].
  - change (stem (String c (String d rest)))
      with (String c (stem (String d rest))).
    destruct IH as [IH | IH]; [left | right]; cbn [String.append];
      f_equal; exact IH.
Qed.

(** Where the invariant holds. Behind a parent that is not empty and does
    not end in two separators, and before a child that does not begin
    with one, both shorter than 65536 bytes, the composed path has exactly
    one separator between them, whether the parent ends in a separator or
    not. The calls of the recursion are of this kind: their parent is a
    path composed for a directory that was opened, and their child a name
    read from it. *)
Lemma newPath_one_separator (pstr dn : string) :
  Z.of_nat (String.length pstr) < USHRT_RANGE ->
  Z.of_nat (String.length dn) < USHRT_RANGE ->
  pstr <> EmptyString ->
  ends_with_separator (stem pstr) = false ->
  starts_with_separator dn = false ->
  exists path,
    newPath pstr dn = Some path /\ one_separator_between pstr dn path.
Proof.
  intros Hp Hd Hne He Hs. rewrite (newPath_short pstr dn Hp Hd).
  replace (String.eqb pstr "") with false
    by (symmetry; now apply String.eqb_neq).
  exists (joined pstr dn). split; [reflexivity|].
  exists (stem pstr). split; [apply stem_cases|]. now repeat split.
Qed.

(** C8 (the code departs from the claim). Line 129 looks at the last byte
    of the parent only. For the root directory, [dirtree /], the two libgen
    calls give the last component [/] and the parent [/]; the parent ends
    in a separator, none is added, and the child, itself a separator, is
    appended: the path handed to [opendir] is [//], two separators in a
    row and not one separator between parent and child. The same happens
    behind any parent before a child that begins with a separator, and
    behind a parent that ends in two. *)
Theorem C8_root_directory_doubles_separator :
  libgen_plain "/" = ("/"%string, Some "/"%string) /\
  newPath (parent_path (snd (libgen_plain "/"))) (fst (libgen_plain "/"))
    = Some "//"%string /\
  doubled_separator "//" = true /\
  ~ one_separator_between "/" "/" "//" /\
  newPath "a" "/b" = Some "a//b"%string /\
  ~ one_separator_between "a" "/b" "a//b" /\
  newPath "a//" "b" = Some "a//b"%string /\
  doubled_separator "a//b" = true /\
  ~ one_separator_between "a//" "b" "a//b".
Proof.
  split; [reflexivity|]. split; [reflexivity|]. split; [reflexivity|]. split.
  { intros (base & _ & _ & Hs & _). discriminate Hs. }
  split; [reflexivity|]. split.
  { intros (base & _ & _ & Hs & _). discriminate Hs. }
  split; [reflexivity|]. split; [reflexivity|].
  intros (base & Hb & He & _ & Hp).
  destruct Hb as [<- | Hb]; [discriminate He|].
  destruct base as [|c [|d [|e base]]]; cbn [String.append] in Hb.
  - discriminate Hb.
  - discriminate Hb.
  - inversion Hb; subst. discriminate He.
  - inversion Hb as [[Hc Hd' He' Hrest]]. destruct base; discriminate Hrest.
Qed.

(* ================================================================= *)
(** * The directory stream *)

(** C9. Whenever [processDir] returns, after a failed [opendir], on an
    empty directory or after the loop over all entries, the streams that
    are open are those that were open at the call: the stream the call
    opened, and every stream opened below it, has been closed. *)
Theorem C9_directory_stream_closed
    (qsort : (dirent -> dirent -> Z) -> list dirent -> list dirent)
    (fs : filesystem) (fuel : nat) (dn pstr : string) (stats : summary)
    (flags : Z) (w : world) (stats' : summary) (w' : world) :
  processDir qsort fs fuel dn pstr stats flags w = Ok (stats', w') ->
  open_dirs w' = open_dirs w.
Proof.
  intros H. apply processDir_Ok in H. destruct H as (vis & _ & _ & ->).
  reflexivity.
Qed.

(** Called with stream 7 open, the run over the sample tree, which opens
    [A] and [A/C], returns with stream 7 open and nothing else. *)
Lemma C9_sample_tree :
  processDir insertion_sort fs_sample 2 "A" "." summary_zero 0
             (mkWorld [] [] [7%nat])
    = Ok (sample_stats, mkWorld sample_output [] [7%nat]) /\
  open_dirs (mkWorld sample_output [] [7%nat])
    = open_dirs (mkWorld [] [] [7%nat]).
Proof.
  assert (Hrun : processDir insertion_sort fs_sample 2 "A" "." summary_zero 0
                            (mkWorld [] [] [7%nat])
                 = Ok (sample_stats, mkWorld sample_output [] [7%nat]))
    by (vm_compute; reflexivity).
  split; [exact Hrun|].
  apply (C9_directory_stream_closed insertion_sort fs_sample 2 "A" "."
           summary_zero 0 (mkWorld [] [] [7%nat]) sample_stats
           (mkWorld sample_output [] [7%nat])).
  exact Hrun.
Defined.

(* ================================================================= *)
(** * The flags argument *)

(** C10. [processDir] passes [flags] on to its recursive calls and never
    reads it: two runs that differ in [flags] alone end in the same
    outcome, with the same statistics and the same output. *)
Theorem C10_flags_ignored
    (qsort : (dirent -> dirent -> Z) -> list dirent -> list dirent)
    (fs : filesystem) (fuel : nat) (dn pstr : string) (stats : summary)
    (flags1 flags2 : Z) (w : world) :
  processDir qsort fs fuel dn pstr stats flags1 w =
  processDir qsort fs fuel dn pstr stats flags2 w.
Proof.
  rewrite (processDir_walk qsort fs fuel dn pstr stats flags1 w).
  rewrite (processDir_walk qsort fs fuel dn pstr stats flags2 w).
  reflexivity.
Qed.

(* ================================================================= *)
(** * The program on the sample tree *)

(** [dirtree -s A nope]: the tree of [A] is listed with its summary, the
    missing root [nope] gets a header and a summary of zeros, and the
    grand total over the two roots repeats the counts of [A]. *)
Example main_sample_run :
  main insertion_sort libgen_plain fs_sample 2
       ["dirtree"; "-s"; "A"; "nope"]%string world_init
  = Ok (EXIT_SUCCESS,
        mkWorld (DirectoryHeader "A" :: sample_output
                 ++ [DirectorySummary sample_stats;
                     DirectoryHeader "nope";
                     DirectorySummary summary_zero;
                     GrandTotalCounts 2 sample_stats]) [] []).
Proof. vm_compute. reflexivity. Qed.

(** [dirtree -x]: the usage error ends the run before any traversal. *)
Example main_unrecognized_option :
  main insertion_sort libgen_plain fs_sample 2
       ["dirtree"; "-x"; "A"]%string world_init
  = Ok (EXIT_FAILURE,
        mkWorld [BlankLines] [UnrecognizedOption "-x"; Usage "dirtree"] []).
Proof. vm_compute. reflexivity. Qed.

(* ================================================================= *)
(** * The command line *)

Lemma is_option_cases (arg : string) :
  (is_option arg = true /\ exists s, arg = String "-" s) \/
  (is_option arg = false /\ forall s, arg <> String "-" s).
Proof.
  destruct arg as [|c s]; [right; split; [reflexivity | discriminate]|].
  destruct (Ascii.eqb_spec c "-") as [->|N].
  - left. split; [reflexivity | now exists s].
  - right. split.
    + destruct c as [[] [] [] [] [] [] [] []]; try reflexivity. now elim N.
    + intros s' H. inversion H. contradiction.
Qed.

(** One round of the argument loop. *)
Lemma parse_args_step (argv0 arg : string) (rest : list string) (flags : Z)
    (directories : list string) (w : world) :
  parse_args argv0 (arg :: rest) flags directories w =
  if is_option arg then
    if strcmp arg "-t" =? 0
    then parse_args argv0 rest (Z.lor flags F_TREE) directories w
    else if strcmp arg "-s" =? 0
    then parse_args argv0 rest (Z.lor flags F_SUMMARY) directories w
    else if strcmp arg "-v" =? 0
    then parse_args argv0 rest (Z.lor flags F_VERBOSE) directories w
    else if strcmp arg "-h" =? 0
    then inl (syntax argv0 None w)
    else inl (syntax argv0 (Some arg) w)
  else
    if Z.of_nat (List.length directories) <? MAX_DIR
    then parse_args argv0 rest flags (directories ++ [arg]) w
    else parse_args argv0 rest flags directories
                    (printf w (TooManyDirectories arg)).
Proof.
  destruct (is_option_cases arg) as [[E [s ->]] | [E N]].
  - reflexivity.
  - rewrite E. destruct arg as [|c s]; [reflexivity|].
    destruct c as [[] [] [] [] [] [] [] []]; try reflexivity.
    now elim (N s).
Qed.

Lemma option_flag_operand (arg : string) :
  is_option arg = false -> option_flag arg = 0.
Proof. unfold option_flag. now intros ->. Qed.

Lemma world_eta (w : world) :
  mkWorld (stdout w ++ []) (stderr w) (open_dirs w) = w.
Proof. destruct w. simpl. now rewrite app_nil_r. Qed.

Section ArgumentLoop.

Variable argv0 : string.

(** With no argument that stops the loop: the flags are the bits of the
    options, the directories are the first [MAX_DIR] operands, and each
    further operand is answered by a warning. *)
Lemma parse_args_run (args : list string) :
  forall flags directories w,
    (List.length directories <= 64)%nat ->
    existsb stops args = false ->
    parse_args argv0 args flags directories w =
    inr (parsed_flags args flags,
         firstn 64 (directories ++ operands args),
         mkWorld (stdout w
                  ++ warnings (skipn 64 (directories ++ operands args)))
                 (stderr w) (open_dirs w)).
Proof.
  induction args as [|arg rest IH]; intros flags dirs w Hlen Hs.
  - cbn [parse_args operands filter parsed_flags fold_left].
    rewrite app_nil_r, firstn_all2, skipn_all2 by lia.
    cbn [warnings map]. now rewrite world_eta.
  - simpl in Hs. apply orb_false_elim in Hs. destruct Hs as [Ha Hr].
    rewrite parse_args_step. unfold parsed_flags. cbn [fold_left].
    fold (parsed_flags rest (Z.lor flags (option_flag arg))).
    unfold operands. cbn [filter]. fold (operands rest).
    unfold stops in Ha. unfold option_flag.
    destruct (is_option arg) eqn:Eo; cbn [negb andb] in *.
    + destruct (strcmp arg "-t" =? 0); [now apply IH|].
      destruct (strcmp arg "-s" =? 0); [now apply IH|].
      destruct (strcmp arg "-v" =? 0); [now apply IH | discriminate].
    + rewrite Z.lor_0_r.
      destruct (Z.of_nat (List.length dirs) <? MAX_DIR) eqn:El.
      * apply Z.ltb_lt in El. unfold MAX_DIR in El.
        rewrite IH; [|rewrite length_app; simpl; lia | exact Hr].
        now rewrite <- !app_assoc.
      * apply Z.ltb_ge in El. unfold MAX_DIR in El.
        assert (Hd : List.length dirs = 64%nat) by lia.
        rewrite IH by assumption.
        rewrite !firstn_app, !skipn_app, Hd, Nat.sub_diag.
        rewrite !firstn_O, !skipn_O, (skipn_all2 dirs) by lia.
        cbn [app printf stdout stderr open_dirs warnings map].
        rewrite <- app_assoc. reflexivity.
Qed.

(** The first argument that stops the loop ends the process in [syntax];
    what follows it is not looked at. *)
Lemma parse_args_stop (before : list string) (bad : string)
    (after : list string) :
  forall flags directories w,
    (List.length directories <= 64)%nat ->
    existsb stops before = false ->
    stops bad = true ->
    parse_args argv0 (before ++ bad :: after) flags directories w =
    inl (syntax argv0
           (if strcmp bad "-h" =? 0 then None else Some bad)
           (mkWorld (stdout w
                     ++ warnings (skipn 64 (directories ++ operands before)))
                    (stderr w) (open_dirs w))).
Proof.
  induction before as [|arg rest IH]; intros flags dirs w Hlen Hs Hb.
  - cbn [app]. rewrite parse_args_step. unfold stops in Hb.
    apply andb_prop in Hb. destruct Hb as [Hb Hv].
    apply andb_prop in Hb. destruct Hb as [Hb Hs'].
    apply andb_prop in Hb. destruct Hb as [Ho Ht].
    apply negb_true_iff in Hv, Hs', Ht. rewrite Ho, Ht, Hs', Hv.
    cbn [operands filter]. rewrite app_nil_r, skipn_all2 by lia.
    cbn [warnings map]. rewrite world_eta.
    now destruct (strcmp bad "-h" =? 0).
  - simpl in Hs. apply orb_false_elim in Hs. destruct Hs as [Ha Hr].
    cbn [app]. rewrite parse_args_step.
    unfold operands. cbn [filter]. fold (operands rest).
    unfold stops in Ha.
    destruct (is_option arg) eqn:Eo; cbn [negb andb] in *.
    + destruct (strcmp arg "-t" =? 0); [now apply IH|].
      destruct (strcmp arg "-s" =? 0); [now apply IH|].
      destruct (strcmp arg "-v" =? 0); [now apply IH | discriminate].
    + destruct (Z.of_nat (List.length dirs) <? MAX_DIR) eqn:El.
      * apply Z.ltb_lt in El. unfold MAX_DIR in El.
        rewrite IH; [|rewrite length_app; simpl; lia | exact Hr | exact Hb].
        now rewrite <- !app_assoc.
      * apply Z.ltb_ge in El. unfold MAX_DIR in El.
        assert (Hd : List.length dirs = 64%nat) by lia.
        rewrite IH by assumption.
        rewrite !skipn_app, Hd, Nat.sub_diag.
        rewrite !skipn_O, (skipn_all2 dirs) by lia.
        cbn [app printf stdout stderr open_dirs warnings map].
        rewrite <- app_assoc. reflexivity.
Qed.

End ArgumentLoop.

Lemma first_stop (args : list string) :
  existsb stops args = true ->
  exists before bad after,
    args = before ++ bad :: after /\
    existsb stops before = false /\ stops bad = true.
Proof.
  induction args as [|arg rest IH]; simpl; [discriminate|].
  destruct (stops arg) eqn:E; simpl.
  - intros _. now exists [], arg, rest.
  - intros H. destruct (IH H) as (before & bad & after & -> & Hb & Hs).
    exists (arg :: before), bad, after. simpl. now rewrite E.
Qed.

(** ** Flag bits *)

Lemma flag_set_lor (flags bit flag : Z) :
  flag_set (Z.lor flags bit) flag = flag_set flags flag || flag_set bit flag.
Proof.
  unfold flag_set. rewrite Z.land_lor_distr_l.
  destruct (Z.land flags flag =? 0) eqn:E1, (Z.land bit flag =? 0) eqn:E2;
    simpl; rewrite ?negb_true_iff, ?negb_false_iff;
    rewrite ?Z.eqb_eq, ?Z.eqb_neq in *; rewrite Z.lor_eq_0_iff; tauto.
Qed.

Lemma existsb_eq {A : Type} (f g : A -> bool) (l : list A) :
  (forall a, f a = g a) -> existsb f l = existsb g l.
Proof.
  intros H. induction l as [|a l IH]; simpl; [reflexivity|].
  now rewrite H, IH.
Qed.

(** Which bits an argument sets. *)
Lemma option_flag_bits (arg : string) :
  flag_set (option_flag arg) F_TREE = (strcmp arg "-t" =? 0) /\
  flag_set (option_flag arg) F_SUMMARY = (strcmp arg "-s" =? 0) /\
  flag_set (option_flag arg) F_VERBOSE = (strcmp arg "-v" =? 0).
Proof.
  unfold option_flag.
  destruct (strcmp arg "-t" =? 0) eqn:Et.
  { apply Z.eqb_eq, strcmp_eq in Et. subst arg. now vm_compute. }
  destruct (strcmp arg "-s" =? 0) eqn:Es.
  { apply Z.eqb_eq, strcmp_eq in Es. subst arg. now vm_compute. }
  destruct (strcmp arg "-v" =? 0) eqn:Ev.
  { apply Z.eqb_eq, strcmp_eq in Ev. subst arg. now vm_compute. }
  destruct (is_option arg); now vm_compute.
Qed.

Lemma parsed_flags_bit (flag : Z) (args : list string) :
  forall flags,
    flag_set (parsed_flags args flags) flag =
    flag_set flags flag
    || existsb (fun arg => flag_set (option_flag arg) flag) args.
Proof.
  unfold parsed_flags.
  induction args as [|arg rest IH]; intros flags; simpl.
  - now rewrite orb_false_r.
  - now rewrite IH, flag_set_lor, orb_assoc.
Qed.

Lemma parsed_flags_given (args : list string) :
  flag_set (parsed_flags args 0) F_TREE = given "-t" args /\
  flag_set (parsed_flags args 0) F_SUMMARY = given "-s" args /\
  flag_set (parsed_flags args 0) F_VERBOSE = given "-v" args.
Proof.
  rewrite !parsed_flags_bit. unfold given.
  repeat split; cbn [orb flag_set Z.land Z.eqb negb];
    apply existsb_eq; intros arg; apply option_flag_bits.
Qed.

(** X1. The argument loop never stores more than [MAX_DIR] directories:
    on a command line without [-h] or an unknown option the directories
    are the first 64 operands, in order; every further operand is
    answered by one warning on stdout, in order, and is not traversed. *)
Theorem X1_first_max_dir_operands_kept (argv0 : string)
    (args : list string) (w : world) :
  existsb stops args = false ->
  exists flags w',
    parse_args argv0 args 0 [] w
      = inr (flags, firstn 64 (operands args), w') /\
    Z.of_nat (List.length (firstn 64 (operands args))) <= MAX_DIR /\
    stdout w' = stdout w ++ warnings (skipn 64 (operands args)) /\
    stderr w' = stderr w.
Proof.
  intros Hs. eexists _, _. split.
  - apply (parse_args_run argv0 args 0 [] w); [simpl; lia | exact Hs].
  - cbn [app stdout stderr]. split; [|split; reflexivity].
    rewrite length_firstn. unfold MAX_DIR. lia.
Qed.

(** Sixty-six operands: two warnings, sixty-four directories. *)
Lemma X1_sixty_six_roots :
  exists flags w',
    parse_args "dirtree" ("-s"%string :: many_roots) 0 [] world_init
      = inr (flags, firstn 64 (operands ("-s"%string :: many_roots)), w') /\
    Z.of_nat (List.length (firstn 64 (operands ("-s"%string :: many_roots))))
      <= MAX_DIR /\
    stdout w' = stdout world_init
                ++ warnings (skipn 64 (operands ("-s"%string :: many_roots))) /\
    stderr w' = stderr world_init.
Proof.
  apply (X1_first_max_dir_operands_kept "dirtree"
           ("-s"%string :: many_roots) world_init).
  vm_compute. reflexivity.
Defined.

(** X2. On a command line without [-h] or an unknown option each of the
    three flag bits is set exactly when its option occurs among the
    arguments: neither the position of an option nor its repetition
    matters. *)
Theorem X2_flags_are_options_given (argv0 : string)
    (args : list string) (w : world) :
  existsb stops args = false ->
  exists flags directories w',
    parse_args argv0 args 0 [] w = inr (flags, directories, w') /\
    flag_set flags F_TREE = given "-t" args /\
    flag_set flags F_SUMMARY = given "-s" args /\
    flag_set flags F_VERBOSE = given "-v" args.
Proof.
  intros Hs. eexists _, _, _. split.
  - apply (parse_args_run argv0 args 0 [] w); [simpl; lia | exact Hs].
  - apply parsed_flags_given.
Qed.

Lemma X2_repeated_options :
  exists flags directories w',
    parse_args "dirtree" ["A"; "-v"; "B"; "-s"; "-v"]%string 0 [] world_init
      = inr (flags, directories, w') /\
    flag_set flags F_TREE = false /\
    flag_set flags F_SUMMARY = true /\
    flag_set flags F_VERBOSE = true.
Proof.
  apply (X2_flags_are_options_given "dirtree"
           ["A"; "-v"; "B"; "-s"; "-v"]%string world_init).
  vm_compute. reflexivity.
Defined.

(* ================================================================= *)
(** * The loop over the roots *)

Lemma summary_ext (s t : summary) :
  dirs s = dirs t -> files s = files t -> links s = links t ->
  fifos s = fifos t -> socks s = socks t -> size s = size t ->
  blocks s = blocks t -> s = t.
Proof. destruct s, t. simpl. intros. now subst. Qed.

(** Counting into an accumulator that holds something is counting into a
    fresh one and adding. *)
Lemma tally_add (visited : list dirent) (stats : summary) :
  in_range stats ->
  tally visited stats = add_summary stats (tally visited summary_zero).
Proof.
  intros Hr.
  assert (HU : 0 < UINT_RANGE) by (unfold UINT_RANGE; lia).
  assert (HL : 0 < ULLONG_RANGE) by (unfold ULLONG_RANGE; lia).
  destruct (tally_fields visited stats Hr)
    as (Hf & Hd & Hl & Hp & Hs & Hz & Hb).
  destruct (tally_fields visited summary_zero summary_zero_in_range)
    as (Hf0 & Hd0 & Hl0 & Hp0 & Hs0 & Hz0 & Hb0).
  simpl in Hf0, Hd0, Hl0, Hp0, Hs0, Hz0, Hb0.
  apply summary_ext; unfold add_summary; cbn [dirs files links fifos socks
                                                 size blocks];
    rewrite ?Hf, ?Hd, ?Hl, ?Hp, ?Hs, ?Hz, ?Hb,
            ?Hf0, ?Hd0, ?Hl0, ?Hp0, ?Hs0, ?Hz0, ?Hb0;
    rewrite ?Z.add_mod_idemp_r by lia; try reflexivity.
  destruct Hr as (_ & _ & _ & _ & _ & _ & Hbr).
  rewrite Z.add_0_r, Z.mod_small by lia. reflexivity.
Qed.

Lemma root_blocks_flags (flags1 flags2 : Z) (directories : list string) :
  forall runs,
    flag_set flags1 F_SUMMARY = flag_set flags2 F_SUMMARY ->
    root_blocks flags1 directories runs = root_blocks flags2 directories runs.
Proof.
  induction directories as [|d rest IH]; intros [|vis runs] H;
    cbn [root_blocks]; try reflexivity.
  unfold root_block. now rewrite H, (IH runs H).
Qed.

Section RootLoop.

Variable qsort : (dirent -> dirent -> Z) -> list dirent -> list dirent.
Variable libgen : string -> string * option string.
Variable fs : filesystem.

(** The loop over the roots, run by run. *)
Lemma process_directories_runs (fuel : nat) (flags : Z) :
  forall directories tstat w,
    process_directories qsort libgen fs fuel flags directories tstat w =
    do runs <- walk_roots qsort libgen fs fuel directories ;;
    Ok (grand_total runs tstat,
        mkWorld (stdout w ++ root_blocks flags directories runs)
                (stderr w) (open_dirs w)).
Proof.
  induction directories as [|d rest IH]; intros tstat w.
  - cbn. now rewrite world_eta.
  - cbn [process_directories walk_roots].
    destruct (libgen d) as [leaf parent]. cbn [fst snd].
    rewrite processDir_walk.
    destruct (walk qsort fs fuel leaf (parent_path parent)) as [vis| |];
      cbn [bind]; [|reflexivity|reflexivity].
    rewrite IH.
    destruct (walk_roots qsort libgen fs fuel rest) as [runs| |];
      cbn [bind]; [|reflexivity|reflexivity].
    f_equal. f_equal. cbn [root_blocks]. unfold root_block.
    destruct (flag_set flags F_SUMMARY);
      cbn [printf printed stdout stderr open_dirs app];
      f_equal; rewrite <- ?app_assoc; cbn [app];
      rewrite <- ?app_assoc; reflexivity.
Qed.

Lemma walk_roots_length (fuel : nat) :
  forall directories runs,
    walk_roots qsort libgen fs fuel directories = Ok runs ->
    List.length runs = List.length directories.
Proof.
  induction directories as [|d rest IH]; intros runs H; simpl in H.
  - now inversion H.
  - apply bind_Ok in H. destruct H as (vis & _ & H).
    apply bind_Ok in H. destruct H as (runs' & Hr & H).
    inversion H; subst. simpl. f_equal. now apply IH.
Qed.

(** The flags reach the loop over the roots through [F_SUMMARY] alone. *)
Lemma process_directories_flags (fuel : nat) (flags1 flags2 : Z)
    directories tstat w :
  flag_set flags1 F_SUMMARY = flag_set flags2 F_SUMMARY ->
  process_directories qsort libgen fs fuel flags1 directories tstat w =
  process_directories qsort libgen fs fuel flags2 directories tstat w.
Proof.
  intros H. rewrite !process_directories_runs.
  destruct (walk_roots qsort libgen fs fuel directories) as [runs| |];
    cbn [bind]; try reflexivity.
  now rewrite (root_blocks_flags flags1 flags2 directories runs H).
Qed.

(** What [main] does once the argument loop is through. *)
Lemma main_run (fuel : nat) (argv0 : string) (args : list string)
    (w : world) :
  existsb stops args = false ->
  main qsort libgen fs fuel (argv0 :: args) w =
  let directories :=
    match firstn 64 (operands args) with
    | [] => ["."%string]
    | _ => firstn 64 (operands args)
    end in
  do (tstat, w2) <-
     process_directories qsort libgen fs fuel (parsed_flags args 0)
       directories summary_zero
       (mkWorld (stdout w ++ warnings (skipn 64 (operands args)))
                (stderr w) (open_dirs w)) ;;
  Ok (EXIT_SUCCESS,
      report_totals (parsed_flags args 0)
                    (Z.of_nat (List.length directories)) tstat w2).
Proof.
  intros Hs. unfold main. cbn [hd tl].
  rewrite (parse_args_run argv0 args 0 [] w); [|simpl; lia | exact Hs].
  reflexivity.
Qed.

Lemma main_stop (fuel : nat) (argv0 : string)
    (before : list string) (bad : string) (after : list string) (w : world) :
  existsb stops before = false ->
  stops bad = true ->
  main qsort libgen fs fuel (argv0 :: before ++ bad :: after) w =
  Ok (EXIT_FAILURE,
      syntax argv0 (if strcmp bad "-h" =? 0 then None else Some bad)
             (mkWorld (stdout w ++ warnings (skipn 64 (operands before)))
                      (stderr w) (open_dirs w))).
Proof.
  intros Hb Hs. unfold main. cbn [hd tl].
  rewrite (parse_args_stop argv0 before bad after 0 [] w);
    [reflexivity | simpl; lia | exact Hb | exact Hs].
Qed.

End RootLoop.

Lemma report_totals_streams (flags ndir : Z) (tstat : summary) (w : world) :
  stderr (report_totals flags ndir tstat w) = stderr w /\
  open_dirs (report_totals flags ndir tstat w) = open_dirs w.
Proof.
  unfold report_totals.
  destruct (flag_set flags F_SUMMARY && (1 <? ndir));
    [destruct (flag_set flags F_VERBOSE)|]; now split.
Qed.

Lemma report_totals_flags (flags1 flags2 ndir : Z) (tstat : summary)
    (w : world) :
  flag_set flags1 F_SUMMARY = flag_set flags2 F_SUMMARY ->
  (flag_set flags1 F_SUMMARY = true ->
   flag_set flags1 F_VERBOSE = flag_set flags2 F_VERBOSE) ->
  report_totals flags1 ndir tstat w = report_totals flags2 ndir tstat w.
Proof.
  intros Hs Hv. unfold report_totals. rewrite <- Hs.
  destruct (flag_set flags1 F_SUMMARY); [|reflexivity].
  now rewrite <- (Hv eq_refl).
Qed.

(** X3. An argument [-h], or an option other than [-t], [-s] and [-v],
    anywhere on the command line ends the run with [EXIT_FAILURE] before
    any directory is opened: whatever the file system holds, nothing but
    warnings about surplus operands (and the blank lines of [syntax]) is
    printed on stdout, and the usage text is the last thing on stderr. *)
Theorem X3_usage_error_before_any_traversal (argv0 : string)
    (args : list string) (w : world) :
  existsb stops args = true ->
  exists w',
    (forall qsort libgen fs fuel,
        main qsort libgen fs fuel (argv0 :: args) w = Ok (EXIT_FAILURE, w')) /\
    open_dirs w' = open_dirs w /\
    (exists message, stderr w' = stderr w ++ message ++ [Usage argv0]) /\
    (exists out,
        stdout w' = stdout w ++ out /\
        Forall (fun e => e = BlankLines \/
                         exists arg, e = TooManyDirectories arg) out).
Proof.
  intros H. apply first_stop in H.
  destruct H as (before & bad & after & -> & Hb & Hs).
  eexists. split.
  { intros qsort libgen fs fuel. now apply main_stop. }
  assert (Hw : Forall (fun e => e = BlankLines \/
                                exists arg, e = TooManyDirectories arg)
                      (warnings (skipn 64 (operands before)))).
  { unfold warnings. apply Forall_forall. intros e He.
    apply in_map_iff in He. destruct He as (arg & <- & _).
    right. now exists arg. }
  unfold syntax. destruct (strcmp bad "-h" =? 0);
    cbn [printf fprintf_stderr stdout stderr open_dirs].
  - split; [reflexivity|]. split; [now exists []|].
    eexists. split; [reflexivity | exact Hw].
  - split; [reflexivity|]. split.
    + exists [UnrecognizedOption bad]. now rewrite <- app_assoc.
    + eexists. split; [now rewrite <- app_assoc|].
      apply Forall_app. split; [exact Hw|]. constructor; [now left | constructor].
Qed.

(** The option comes last, after a directory that exists. *)
Lemma X3_option_after_directory :
  exists w',
    (forall qsort libgen fs fuel,
        main qsort libgen fs fuel ["dirtree"; "A"; "-x"]%string world_init
        = Ok (EXIT_FAILURE, w')) /\
    open_dirs w' = open_dirs world_init /\
    (exists message,
        stderr w' = stderr world_init ++ message ++ [Usage "dirtree"]) /\
    (exists out,
        stdout w' = stdout world_init ++ out /\
        Forall (fun e => e = BlankLines \/
                         exists arg, e = TooManyDirectories arg) out).
Proof.
  apply (X3_usage_error_before_any_traversal "dirtree" ["A"; "-x"]%string
           world_init).
  vm_compute. reflexivity.
Defined.

Section MainRuns.

Variable qsort : (dirent -> dirent -> Z) -> list dirent -> list dirent.
Variable libgen : string -> string * option string.
Variable fs : filesystem.

(** X4. A run that gets past the argument loop exits with
    [EXIT_SUCCESS], writes nothing to stderr and leaves no directory
    stream open, whichever of its directories could not be opened. *)
Theorem X4_traversal_is_silent (fuel : nat) (argv0 : string)
    (args : list string) (w : world) (code : Z) (w' : world) :
  existsb stops args = false ->
  main qsort libgen fs fuel (argv0 :: args) w = Ok (code, w') ->
  code = EXIT_SUCCESS /\ stderr w' = stderr w /\ open_dirs w' = open_dirs w.
Proof.
  intros Hs H. rewrite (main_run qsort libgen fs fuel argv0 args w Hs) in H.
  cbv zeta in H. apply bind_Ok in H. destruct H as ([tstat w2] & Hp & H).
  inversion H; subst. split; [reflexivity|].
  rewrite process_directories_runs in Hp.
  apply bind_Ok in Hp. destruct Hp as (runs & _ & Hp).
  inversion Hp; subst.
  match goal with
  | |- stderr (report_totals ?f ?n ?t ?x) = _ /\ _ =>
      destruct (report_totals_streams f n t x) as [He Ho];
      rewrite He, Ho; now split
  end.
Qed.

(** X5. The loop over the roots prints the roots' blocks in the order of
    the roots. With [-s] the block of a root is its header, one line for
    each entry visited under it, and the summary, whose figures are the
    tally of exactly those entries; without [-s] it is the entry lines
    alone. The total returned is the roots' tallies added up in order. *)
Theorem X5_root_blocks_in_order (fuel : nat) (flags : Z)
    (directories : list string) (tstat : summary) (w : world)
    (tstat' : summary) (w' : world) :
  process_directories qsort libgen fs fuel flags directories tstat w
    = Ok (tstat', w') ->
  exists runs,
    walk_roots qsort libgen fs fuel directories = Ok runs /\
    List.length runs = List.length directories /\
    stdout w' = stdout w ++ root_blocks flags directories runs /\
    tstat' = grand_total runs tstat.
Proof.
  rewrite process_directories_runs. intros H.
  apply bind_Ok in H. destruct H as (runs & Hr & H). inversion H; subst.
  exists runs. split; [exact Hr|]. split; [|now split].
  now apply walk_roots_length in Hr.
Qed.

End MainRuns.

(** [dirtree A nope]: the missing root leaves no trace on stderr and
    the exit status is success. *)
Lemma X4_missing_root :
  main insertion_sort libgen_plain fs_sample 2
       ["dirtree"; "A"; "nope"]%string world_init
    = Ok (EXIT_SUCCESS, mkWorld sample_output [] []) /\
  (EXIT_SUCCESS = EXIT_SUCCESS /\
   stderr (mkWorld sample_output [] []) = stderr world_init /\
   open_dirs (mkWorld sample_output [] []) = open_dirs world_init).
Proof.
  assert (Hrun : main insertion_sort libgen_plain fs_sample 2
                      ["dirtree"; "A"; "nope"]%string world_init
                 = Ok (EXIT_SUCCESS, mkWorld sample_output [] []))
    by (vm_compute; reflexivity).
  split; [exact Hrun|].
  apply (X4_traversal_is_silent insertion_sort libgen_plain fs_sample 2
           "dirtree" ["A"; "nope"]%string world_init EXIT_SUCCESS
           (mkWorld sample_output [] [])).
  - vm_compute. reflexivity.
  - exact Hrun.
Defined.

Lemma X5_two_roots_with_summary :
  exists runs,
    walk_roots insertion_sort libgen_plain fs_sample 2 ["A"; "nope"]%string
      = Ok runs /\
    List.length runs = List.length ["A"; "nope"]%string /\
    DirectoryHeader "A" :: sample_output
      ++ [DirectorySummary sample_stats; DirectoryHeader "nope";
          DirectorySummary summary_zero]
    = [] ++ root_blocks F_SUMMARY ["A"; "nope"]%string runs /\
    sample_stats = grand_total runs summary_zero.
Proof.
  apply (X5_root_blocks_in_order insertion_sort libgen_plain fs_sample 2
           F_SUMMARY ["A"; "nope"]%string summary_zero world_init
           sample_stats
           (mkWorld (DirectoryHeader "A" :: sample_output
                     ++ [DirectorySummary sample_stats;
                         DirectoryHeader "nope";
                         DirectorySummary summary_zero]) [] [])).
  vm_compute. reflexivity.
Defined.

(** ** Options that change nothing *)

Section Without.

Variable opt : string.
Hypothesis opt_is_option : is_option opt = true.
Hypothesis opt_goes_on : stops opt = false.

Lemma removed_is_opt (arg : string) :
  (strcmp arg opt =? 0) = true -> arg = opt.
Proof. rewrite Z.eqb_eq. apply strcmp_eq. Qed.

Lemma stops_without (args : list string) :
  existsb stops (without opt args) = existsb stops args.
Proof.
  induction args as [|arg rest IH]; [reflexivity|].
  unfold without in *. cbn [filter existsb].
  destruct (strcmp arg opt =? 0) eqn:E; cbn [negb existsb].
  - apply removed_is_opt in E. subst arg. now rewrite opt_goes_on.
  - now rewrite IH.
Qed.

Lemma operands_without (args : list string) :
  operands (without opt args) = operands args.
Proof.
  induction args as [|arg rest IH]; [reflexivity|].
  unfold without, operands in *. cbn [filter].
  destruct (strcmp arg opt =? 0) eqn:E; cbn [negb filter].
  - apply removed_is_opt in E. subst arg. now rewrite opt_is_option.
  - now rewrite IH.
Qed.

Lemma given_without (other : string) (args : list string) :
  other <> opt -> given other (without opt args) = given other args.
Proof.
  intros Hne. induction args as [|arg rest IH]; [reflexivity|].
  unfold without, given in *. cbn [filter existsb].
  destruct (strcmp arg opt =? 0) eqn:E; cbn [negb existsb].
  - apply removed_is_opt in E. subst arg.
    replace (strcmp opt other =? 0) with false; [exact IH|].
    symmetry. apply Z.eqb_neq. rewrite strcmp_eq. congruence.
  - now rewrite IH.
Qed.

Lemma without_split (before : list string) (bad : string)
    (after : list string) :
  stops bad = true ->
  without opt (before ++ bad :: after)
  = without opt before ++ bad :: without opt after.
Proof.
  intros Hs. unfold without. rewrite filter_app. cbn [filter].
  destruct (strcmp bad opt =? 0) eqn:E; [|reflexivity].
  apply removed_is_opt in E. subst bad. congruence.
Qed.

Variable qsort : (dirent -> dirent -> Z) -> list dirent -> list dirent.
Variable libgen : string -> string * option string.
Variable fs : filesystem.

(** Taking an option off the command line changes nothing when the flags
    before and after say the same about the summary and, if there is one,
    about verbosity. *)
Lemma main_without (fuel : nat) (argv0 : string) (args : list string)
    (w : world) :
  flag_set (parsed_flags args 0) F_SUMMARY
    = flag_set (parsed_flags (without opt args) 0) F_SUMMARY ->
  (flag_set (parsed_flags args 0) F_SUMMARY = true ->
   flag_set (parsed_flags args 0) F_VERBOSE
     = flag_set (parsed_flags (without opt args) 0) F_VERBOSE) ->
  main qsort libgen fs fuel (argv0 :: args) w =
  main qsort libgen fs fuel (argv0 :: without opt args) w.
Proof.
  intros HS HV. destruct (existsb stops args) eqn:Hs.
  - apply first_stop in Hs.
    destruct Hs as (before & bad & after & -> & Hb & Hbad).
    rewrite (without_split before bad after Hbad).
    rewrite !main_stop; try assumption.
    + now rewrite operands_without.
    + now rewrite stops_without.
  - rewrite !main_run; try assumption; [|now rewrite stops_without].
    cbv zeta. rewrite operands_without.
    rewrite (process_directories_flags qsort libgen fs fuel _ _ _ _ _ HS).
    destruct (process_directories _ _ _ _ _ _ _ _) as [[tstat w2]| |];
      cbn [bind]; try reflexivity.
    now rewrite (report_totals_flags _ _ _ _ _ HS HV).
Qed.

End Without.

(** X6. [-t] is accepted and has no effect: a command line and the same
    command line with every [-t] taken off give the same run, the same
    output and the same exit status. *)
Theorem X6_tree_option_has_no_effect
    (qsort : (dirent -> dirent -> Z) -> list dirent -> list dirent)
    (libgen : string -> string * option string) (fs : filesystem)
    (fuel : nat) (argv0 : string) (args : list string) (w : world) :
  main qsort libgen fs fuel (argv0 :: args) w =
  main qsort libgen fs fuel (argv0 :: without "-t" args) w.
Proof.
  destruct (parsed_flags_given args) as (_ & Hs & Hv).
  destruct (parsed_flags_given (without "-t" args)) as (_ & Hs' & Hv').
  apply main_without; try reflexivity.
  - rewrite Hs, Hs'. symmetry. now apply given_without.
  - intros _. rewrite Hv, Hv'. symmetry. now apply given_without.
Qed.

(** X7. Without [-s], [-v] has no effect either: it only adds the size
    and block lines to the grand total, which [-s] alone brings about. *)
Theorem X7_verbose_needs_summary
    (qsort : (dirent -> dirent -> Z) -> list dirent -> list dirent)
    (libgen : string -> string * option string) (fs : filesystem)
    (fuel : nat) (argv0 : string) (args : list string) (w : world) :
  given "-s" args = false ->
  main qsort libgen fs fuel (argv0 :: args) w =
  main qsort libgen fs fuel (argv0 :: without "-v" args) w.
Proof.
  intros Hno.
  destruct (parsed_flags_given args) as (_ & Hs & _).
  destruct (parsed_flags_given (without "-v" args)) as (_ & Hs' & _).
  apply main_without; try reflexivity.
  - rewrite Hs, Hs'. symmetry. now apply given_without.
  - rewrite Hs, Hno. discriminate.
Qed.

Lemma X7_verbose_alone :
  main insertion_sort libgen_plain fs_sample 2
       ["dirtree"; "-v"; "A"]%string world_init
  = main insertion_sort libgen_plain fs_sample 2
         ("dirtree"%string :: without "-v" ["-v"; "A"]%string) world_init.
Proof.
  apply (X7_verbose_needs_summary insertion_sort libgen_plain fs_sample 2
           "dirtree" ["-v"; "A"]%string world_init).
  vm_compute. reflexivity.
Defined.

(** X8. Without an operand the program lists the current directory: a
    command line that names no directory and the same command line with
    [.] added at its end give the same run. *)
Theorem X8_default_is_current_directory
    (qsort : (dirent -> dirent -> Z) -> list dirent -> list dirent)
    (libgen : string -> string * option string) (fs : filesystem)
    (fuel : nat) (argv0 : string) (args : list string) (w : world) :
  operands args = [] ->
  main qsort libgen fs fuel (argv0 :: args) w =
  main qsort libgen fs fuel (argv0 :: args ++ ["."%string]) w.
Proof.
  intros Hno. destruct (existsb stops args) eqn:Hs.
  - apply first_stop in Hs.
    destruct Hs as (before & bad & after & -> & Hb & Hbad).
    rewrite <- app_assoc. cbn [app].
    now rewrite !main_stop.
  - rewrite !main_run; try assumption.
    2: { rewrite existsb_app, Hs. reflexivity. }
    cbv zeta. unfold operands in *. rewrite filter_app, Hno.
    unfold parsed_flags. rewrite fold_left_app.
    cbn [filter is_option negb app fold_left firstn skipn].
    change (option_flag ".") with 0. rewrite Z.lor_0_r. reflexivity.
Qed.

Lemma X8_no_operand :
  main insertion_sort libgen_plain fs_sample 2
       ["dirtree"; "-s"]%string world_init
  = main insertion_sort libgen_plain fs_sample 2
         ("dirtree"%string :: ["-s"]%string ++ ["."]%string) world_init.
Proof.
  apply (X8_default_is_current_directory insertion_sort libgen_plain
           fs_sample 2 "dirtree" ["-s"]%string world_init).
  reflexivity.
Defined.

(** ** The order of the roots *)

Lemma sum_over_perm (g : string -> Z) (ds1 ds2 : list string) :
  Permutation ds1 ds2 -> sum_over g ds1 = sum_over g ds2.
Proof.
  induction 1 as [|d l1 l2 _ IH|d e l|l1 l2 l3 _ IH1 _ IH2]; simpl; lia.
Qed.

Lemma grand_total_in_range (runs : list (list dirent)) :
  forall tstat, in_range tstat -> in_range (grand_total runs tstat).
Proof.
  unfold grand_total.
  induction runs as [|vis runs IH]; intros tstat H; simpl; [exact H|].
  apply IH, add_summary_in_range.
Qed.

Section RootOrder.

Variable qsort : (dirent -> dirent -> Z) -> list dirent -> list dirent.
Variable libgen : string -> string * option string.
Variable fs : filesystem.
Variable fuel : nat.

Lemma walk_roots_Ok_iff (directories : list string) :
  (exists runs, walk_roots qsort libgen fs fuel directories = Ok runs) <->
  Forall (fun d => exists visited,
              walk qsort fs fuel (fst (libgen d)) (parent_path (snd (libgen d)))
              = Ok visited) directories.
Proof.
  induction directories as [|d rest IH]; simpl.
  - split; [constructor | now exists []].
  - split.
    + intros [runs H]. apply bind_Ok in H. destruct H as (vis & Hv & H).
      apply bind_Ok in H. destruct H as (runs' & Hr & _).
      constructor; [now exists vis | apply IH; now exists runs'].
    + intros H. inversion H as [|? ? [vis Hv] Hrest]; subst.
      apply IH in Hrest. destruct Hrest as [runs Hr].
      rewrite Hv, Hr. simpl. eexists. reflexivity.
Qed.

(** One field of the running total, as a sum over the roots. *)
Lemma grand_total_field (f : summary -> Z) (R : Z) :
  0 < R ->
  (forall a b, f (add_summary a b) = (f a + f b) mod R) ->
  forall directories runs tstat,
    walk_roots qsort libgen fs fuel directories = Ok runs ->
    f (grand_total runs tstat) mod R
    = (f tstat + sum_over (root_field qsort libgen fs fuel f) directories)
      mod R.
Proof.
  intros HR Hadd. induction directories as [|d rest IH];
    intros runs tstat H; simpl in H.
  - inversion H; subst. simpl. now rewrite Z.add_0_r.
  - apply bind_Ok in H. destruct H as (vis & Hv & H).
    apply bind_Ok in H. destruct H as (runs' & Hr & H).
    inversion H; subst. unfold grand_total. cbn [fold_left].
    fold (grand_total runs' (add_summary tstat (tally vis summary_zero))).
    rewrite (IH runs' _ Hr), Hadd, Z.add_mod_idemp_l by lia.
    cbn [sum_over fold_right]. fold (sum_over (root_field qsort libgen fs fuel f) rest).
    unfold root_field at 2. rewrite Hv. f_equal. lia.
Qed.

Lemma grand_total_perm (ds1 ds2 : list string) runs1 runs2 :
  Permutation ds1 ds2 ->
  walk_roots qsort libgen fs fuel ds1 = Ok runs1 ->
  walk_roots qsort libgen fs fuel ds2 = Ok runs2 ->
  grand_total runs1 summary_zero = grand_total runs2 summary_zero.
Proof.
  intros Hp H1 H2.
  assert (HU : 0 < UINT_RANGE) by (unfold UINT_RANGE; lia).
  assert (HL : 0 < ULLONG_RANGE) by (unfold ULLONG_RANGE; lia).
  pose proof (grand_total_in_range runs1 _ summary_zero_in_range)
    as (? & ? & ? & ? & ? & ? & ?).
  pose proof (grand_total_in_range runs2 _ summary_zero_in_range)
    as (? & ? & ? & ? & ? & ? & ?).
  assert (Hfield : forall f R,
             0 < R ->
             (forall a b, f (add_summary a b) = (f a + f b) mod R) ->
             f (grand_total runs1 summary_zero) mod R
             = f (grand_total runs2 summary_zero) mod R).
  { intros f R HR Hadd.
    rewrite (grand_total_field f R HR Hadd ds1 runs1 _ H1).
    rewrite (grand_total_field f R HR Hadd ds2 runs2 _ H2).
    now rewrite (sum_over_perm _ ds1 ds2 Hp). }
  apply summary_ext.
  - specialize (Hfield dirs UINT_RANGE HU (fun a b => eq_refl)).
    rewrite !Z.mod_small in Hfield by lia. exact Hfield.
  - specialize (Hfield files UINT_RANGE HU (fun a b => eq_refl)).
    rewrite !Z.mod_small in Hfield by lia. exact Hfield.
  - specialize (Hfield links UINT_RANGE HU (fun a b => eq_refl)).
    rewrite !Z.mod_small in Hfield by lia. exact Hfield.
  - specialize (Hfield fifos UINT_RANGE HU (fun a b => eq_refl)).
    rewrite !Z.mod_small in Hfield by lia. exact Hfield.
  - specialize (Hfield socks UINT_RANGE HU (fun a b => eq_refl)).
    rewrite !Z.mod_small in Hfield by lia. exact Hfield.
  - specialize (Hfield size ULLONG_RANGE HL (fun a b => eq_refl)).
    rewrite !Z.mod_small in Hfield by lia. exact Hfield.
  - specialize (Hfield blocks ULLONG_RANGE HL (fun a b => eq_refl)).
    rewrite !Z.mod_small in Hfield by lia. exact Hfield.
Qed.

End RootOrder.

(** X9. The grand total does not depend on the order in which the roots
    are given: when the loop over some roots returns, it returns for
    every rearrangement of them, with the same total in every field. *)
Theorem X9_total_independent_of_root_order
    (qsort : (dirent -> dirent -> Z) -> list dirent -> list dirent)
    (libgen : string -> string * option string) (fs : filesystem)
    (fuel : nat) (flags : Z) (ds1 ds2 : list string) (w1 w2 : world)
    (tstat : summary) (w1' : world) :
  Permutation ds1 ds2 ->
  process_directories qsort libgen fs fuel flags ds1 summary_zero w1
    = Ok (tstat, w1') ->
  exists w2',
    process_directories qsort libgen fs fuel flags ds2 summary_zero w2
    = Ok (tstat, w2').
Proof.
  intros Hp H. rewrite process_directories_runs in H.
  apply bind_Ok in H. destruct H as (runs1 & H1 & H). inversion H; subst.
  assert (H2 : exists runs2,
             walk_roots qsort libgen fs fuel ds2 = Ok runs2).
  { apply walk_roots_Ok_iff. eapply Permutation_Forall; [exact Hp|].
    apply walk_roots_Ok_iff. now exists runs1. }
  destruct H2 as [runs2 H2].
  rewrite process_directories_runs, H2. cbn [bind].
  rewrite (grand_total_perm qsort libgen fs fuel ds1 ds2 runs1 runs2 Hp H1 H2).
  eexists. reflexivity.
Qed.

Lemma X9_roots_swapped :
  exists w2',
    process_directories insertion_sort libgen_plain fs_sample 2 F_SUMMARY
      ["nope"; "A"]%string summary_zero world_init
    = Ok (sample_stats, w2').
Proof.
  apply (X9_total_independent_of_root_order insertion_sort libgen_plain
           fs_sample 2 F_SUMMARY ["A"; "nope"]%string ["nope"; "A"]%string
           world_init world_init sample_stats
           (mkWorld (DirectoryHeader "A" :: sample_output
                     ++ [DirectorySummary sample_stats;
                         DirectoryHeader "nope";
                         DirectorySummary summary_zero]) [] [])).
  - apply perm_swap.
  - vm_compute. reflexivity.
Defined.

(* ================================================================= *)
(** * More on processDir *)

Lemma not_dot_names (dp : dirent) :
  not_dot dp = true <-> d_name dp <> "."%string /\ d_name dp <> ".."%string.
Proof.
  unfold not_dot. rewrite negb_true_iff, orb_false_iff, !Z.eqb_neq, !strcmp_eq.
  tauto.
Qed.

Section Listing.

Variable qsort : (dirent -> dirent -> Z) -> list dirent -> list dirent.
Variable fs : filesystem.
Hypothesis qsort_ok : qsort_spec qsort.

Lemma walk_entries_all (P : dirent -> Prop)
    (below : string -> result (list dirent)) :
  (forall name vis, below name = Ok vis -> Forall P vis) ->
  forall entries vis,
    Forall P entries ->
    walk_entries below entries = Ok vis -> Forall P vis.
Proof.
  intros Hb. induction entries as [|dp rest IH]; intros vis Hall H;
    simpl in H.
  - inversion H. constructor.
  - inversion Hall as [|? ? Hdp Hrest]; subst.
    destruct (descends dp).
    + apply bind_Ok in H. destruct H as (sub & Hs & H).
      apply bind_Ok in H. destruct H as (after & Ha & H).
      inversion H; subst. constructor; [exact Hdp|].
      apply Forall_app. split; [now apply (Hb _ _ Hs) | now apply IH].
    + apply bind_Ok in H. destruct H as (after & Ha & H).
      inversion H; subst. constructor; [exact Hdp | now apply IH].
Qed.

(** Every entry visited passed the test of the [readdir] loop. *)
Lemma walk_not_dot (fuel : nat) :
  forall dn pstr vis,
    walk qsort fs fuel dn pstr = Ok vis ->
    Forall (fun dp => not_dot dp = true) vis.
Proof.
  induction fuel as [|fuel IH]; intros dn pstr vis H; simpl in H;
    [discriminate|].
  destruct (newPath pstr dn) as [path|]; [|discriminate].
  destruct (dir_stream fs path) as [stream|];
    [|inversion H; constructor].
  destruct (INT_MAX <? _); [discriminate|].
  destruct (_ =? 0); [inversion H; constructor|].
  eapply walk_entries_all; [| |exact H].
  - intros name v Hv. exact (IH _ _ _ Hv).
  - apply Forall_forall. intros dp Hin.
    apply (sort_entries_in qsort qsort_ok) in Hin.
    now apply filter_In in Hin.
Qed.

End Listing.

(** X10. [processDir] never lists the entries [.] and [..]: every line
    it prints, at any depth, carries a name other than these two. *)
Theorem X10_dot_entries_never_listed
    (qsort : (dirent -> dirent -> Z) -> list dirent -> list dirent)
    (fs : filesystem) (fuel : nat) (dn pstr : string) (stats : summary)
    (flags : Z) (w : world) (stats' : summary) (w' : world) :
  qsort_spec qsort ->
  processDir qsort fs fuel dn pstr stats flags w = Ok (stats', w') ->
  exists lines,
    stdout w' = stdout w ++ lines /\
    Forall (fun e => exists name,
                e = EntryLine name /\ name <> "."%string /\ name <> ".."%string)
           lines.
Proof.
  intros Hq H. apply processDir_Ok in H. destruct H as (vis & Hw & _ & ->).
  exists (entry_lines vis). split; [reflexivity|].
  apply (walk_not_dot qsort fs Hq) in Hw.
  unfold entry_lines. apply Forall_forall. intros e He.
  apply in_map_iff in He. destruct He as (dp & <- & Hin).
  rewrite Forall_forall in Hw. exists (d_name dp).
  split; [reflexivity|]. now apply not_dot_names, Hw.
Qed.

Lemma X10_sample_tree :
  exists lines,
    stdout (mkWorld sample_output [] []) = stdout world_init ++ lines /\
    Forall (fun e => exists name,
                e = EntryLine name /\ name <> "."%string /\ name <> ".."%string)
           lines.
Proof.
  apply (X10_dot_entries_never_listed insertion_sort fs_sample 2 "A" "."
           summary_zero 0 world_init sample_stats
           (mkWorld sample_output [] [])).
  - apply insertion_sort_spec.
  - vm_compute. reflexivity.
Defined.

(** X11. [processDir] adds to the accumulator it is given exactly what it
    would leave in a zeroed one: a run on an accumulator that already
    holds counts ends with those counts plus, field by field and in the
    arithmetic of the field, the result of the same run from zero, and
    prints the same. *)
Theorem X11_run_adds_to_accumulator
    (qsort : (dirent -> dirent -> Z) -> list dirent -> list dirent)
    (fs : filesystem) (fuel : nat) (dn pstr : string) (stats : summary)
    (flags : Z) (w : world) (stats' : summary) (w' : world) :
  in_range stats ->
  processDir qsort fs fuel dn pstr stats flags w = Ok (stats', w') ->
  exists dstat,
    processDir qsort fs fuel dn pstr summary_zero flags w = Ok (dstat, w') /\
    stats' = add_summary stats dstat.
Proof.
  intros Hr H. apply processDir_Ok in H. destruct H as (vis & Hw & -> & ->).
  exists (tally vis summary_zero). split.
  - now rewrite processDir_walk, Hw.
  - now apply tally_add.
Qed.

Lemma X11_second_run_on_same_accumulator :
  exists dstat,
    processDir insertion_sort fs_sample 2 "A" "." summary_zero 0 world_init
      = Ok (dstat, mkWorld sample_output [] []) /\
    mkSummary 2 4 0 0 0 128 0 = add_summary sample_stats dstat.
Proof.
  apply (X11_run_adds_to_accumulator insertion_sort fs_sample 2 "A" "."
           sample_stats 0 world_init (mkSummary 2 4 0 0 0 128 0)
           (mkWorld sample_output [] [])).
  - vm_compute. intuition discriminate.
  - vm_compute. reflexivity.
Defined.

(** X12. The composed path fits the buffer allocated for it exactly when
    parent and child are both shorter than 65536 bytes: from 65536 bytes
    on, either length is stored truncated and the copy runs past the
    allocation. *)
Theorem X12_newPath_fits_iff_short (pstr dn : string) :
  (exists path, newPath pstr dn = Some path) <->
  Z.of_nat (String.length pstr) < USHRT_RANGE /\
  Z.of_nat (String.length dn) < USHRT_RANGE.
Proof.
  unfold newPath, USHRT_RANGE.
  set (sep := if _ : bool then "/"%string else EmptyString).
  assert (Hsep : (String.length sep <= 1)%nat)
    by (subst sep; destruct (_ && _); simpl; lia).
  pose proof (Z.mod_pos_bound (Z.of_nat (String.length pstr)) (2 ^ 16)
                ltac:(lia)) as Hp.
  pose proof (Z.mod_pos_bound (Z.of_nat (String.length dn)) (2 ^ 16)
                ltac:(lia)) as Hd.
  pose proof (Z.div_mod (Z.of_nat (String.length pstr)) (2 ^ 16)
                ltac:(lia)) as Hp'.
  pose proof (Z.div_mod (Z.of_nat (String.length dn)) (2 ^ 16)
                ltac:(lia)) as Hd'.
  pose proof (Z.div_pos (Z.of_nat (String.length pstr)) (2 ^ 16)
                ltac:(lia) ltac:(lia)) as Hpq.
  pose proof (Z.div_pos (Z.of_nat (String.length dn)) (2 ^ 16)
                ltac:(lia) ltac:(lia)) as Hdq.
  change (2 ^ 16) with 65536 in *.
  rewrite !string_length_append.
  destruct (_ <=? _) eqn:E.
  - apply Z.leb_le in E. split; [intros _ | intros _; eexists; reflexivity].
    lia.
  - apply Z.leb_gt in E. split; [intros [path H]; discriminate|].
    intros [H1 H2]. rewrite !Z.mod_small in E by lia. lia.
Qed.

Section EmptyDirectory.

Variable qsort : (dirent -> dirent -> Z) -> list dirent -> list dirent.
Variable fs : filesystem.

(** X13. A directory that holds nothing but [.] and [..] is opened and
    closed again and that is all: nothing is printed, no counter moves,
    nothing is sorted or descended into, and one level of budget is
    enough. *)
Theorem X13_empty_directory (fuel : nat) (dn pstr path : string)
    (stream : list dirent) (stats : summary) (flags : Z) (w : world) :
  newPath pstr dn = Some path ->
  dir_stream fs path = Some stream ->
  Forall (fun dp => d_name dp = "."%string \/ d_name dp = ".."%string) stream ->
  processDir qsort fs (S fuel) dn pstr stats flags w = Ok (stats, w).
Proof.
  intros Hp Hd Hall.
  assert (Hf : filter not_dot stream = []).
  { clear Hd. induction Hall as [|dp l Hdp _ IH]; [reflexivity|]. simpl.
    replace (not_dot dp) with false; [exact IH|].
    symmetry. apply not_true_is_false. rewrite not_dot_names. tauto. }
  cbn [processDir]. rewrite Hp. unfold opendir. rewrite Hd, Hf.
  cbn [List.length]. change (INT_MAX <? Z.of_nat 0) with false.
  change (Z.of_nat 0 =? 0) with true. cbv iota.
  rewrite (closedir_fresh w (stdout w)). now destruct w.
Qed.

End EmptyDirectory.

Lemma X13_only_dot_entries :
  processDir insertion_sort fs_empty_dir 1 "e" "." sample_stats 0 world_init
  = Ok (sample_stats, world_init).
Proof.
  apply (X13_empty_directory insertion_sort fs_empty_dir 0 "e" "." "./e"
           dot_entries sample_stats 0 world_init).
  - reflexivity.
  - reflexivity.
  - constructor; [now left | constructor; [now right | constructor]].
Defined.

(* ================================================================= *)
(** * getNext *)

(** X14. [getNext] hands out the first entry of the stream that is
    neither [.] nor [..], never one of these two, and reports no error
    with it; it returns NULL only when the stream ends or [readdir] fails,
    and then reports the failure. The entries it hands out call after
    call are those the [readdir] loop of [processDir] keeps, in the same
    order. *)
Theorem X14_getNext_skips_dot_entries (dir : list readdir_result) :
  match getNext dir with
  | (Some next, rest, reported) =>
      reported = None /\
      d_name next <> "."%string /\ d_name next <> ".."%string /\
      filter not_dot (entries_read dir)
      = next :: filter not_dot (entries_read rest)
  | (None, rest, reported) =>
      filter not_dot (entries_read dir) = [] /\
      match reported with
      | None => rest = []
      | Some errno =>
          exists skipped, dir = map Entry skipped ++ ReadError errno :: rest
      end
  end.
Proof.
  induction dir as [|[dp|errno] dir IH]; cbn [getNext entries_read filter].
  - now split.
  - pose proof (not_dot_names dp) as Hn. unfold not_dot in Hn |- *.
    destruct ((strcmp (d_name dp) "." =? 0) || (strcmp (d_name dp) ".." =? 0));
      cbn [negb] in Hn |- *.
    2: { destruct (proj1 Hn eq_refl) as [E1 E2]. repeat split; assumption. }
    destruct (getNext dir) as [[[next|] rest] reported].
    + exact IH.
    + destruct IH as [Hf Hr]. split; [exact Hf|].
      destruct reported as [errno|]; [|exact Hr].
      destruct Hr as [skipped ->]. now exists (dp :: skipped).
  - split; [reflexivity|]. now exists [].
Qed.

(* ================================================================= *)
(** * The sort does not depend on the libc at hand *)

Lemma insertion_sort_rev_spec : qsort_spec insertion_sort_rev.
Proof.
  intros cmp l Hc. unfold insertion_sort_rev.
  destruct (insertion_sort_spec cmp (rev l) Hc) as [Hp Hs].
  split; [|exact Hs].
  eapply perm_trans; [apply Permutation_rev | exact Hp].
Qed.

(** Two ascending arrangements of the same entries are the same list
    when no two different entries compare equal. *)
Lemma ascending_unique (cmp : dirent -> dirent -> Z) (l1 : list dirent) :
  forall l2,
    ascending cmp l1 -> ascending cmp l2 -> Permutation l1 l2 ->
    (forall a b, In a l1 -> In b l1 ->
                 cmp a b <= 0 -> cmp b a <= 0 -> a = b) ->
    l1 = l2.
Proof.
  unfold ascending.
  induction l1 as [|a l1 IH]; intros l2 H1 H2 Hp Hanti.
  - apply Permutation_nil in Hp. now subst.
  - destruct l2 as [|b l2].
    { apply Permutation_sym, Permutation_nil in Hp. discriminate. }
    inversion H1 as [|? ? S1 F1]; subst.
    inversion H2 as [|? ? S2 F2]; subst.
    rewrite Forall_forall in F1, F2.
    assert (Hab : a = b).
    { assert (Ha : In a (b :: l2))
        by (eapply Permutation_in; [exact Hp | now left]).
      assert (Hb : In b (a :: l1))
        by (eapply Permutation_in; [apply Permutation_sym, Hp | now left]).
      destruct Ha as [<- | Ha]; [reflexivity|].
      destruct Hb as [<- | Hb]; [reflexivity|].
      apply Hanti; [now left | now right | now apply F1 | now apply F2]. }
    subst b. f_equal. apply Permutation_cons_inv in Hp.
    apply IH; try assumption.
    intros x y Hx Hy. apply Hanti; now right.
Qed.

Lemma names_differ_ties (entries : list dirent) :
  names_differ entries ->
  forall a b, In a entries -> In b entries ->
              dirent_compare a b <= 0 -> dirent_compare b a <= 0 -> a = b.
Proof.
  intros Hn a b Ha Hb H1 H2. apply Hn; try assumption.
  rewrite (dirent_compare_antisym a b) in H2.
  assert (H0 : dirent_compare a b = 0) by lia.
  now apply dirent_compare_zero in H0.
Qed.

(** Every sort that keeps the promise of [qsort] arranges entries with
    different names in the same way. *)
Lemma qsort_unique (q1 q2 : (dirent -> dirent -> Z) -> list dirent -> list dirent)
    (entries : list dirent) :
  qsort_spec q1 -> qsort_spec q2 -> names_differ entries ->
  q1 dirent_compare entries = q2 dirent_compare entries.
Proof.
  intros H1 H2 Hn.
  destruct (H1 dirent_compare entries dirent_compare_consistent) as [P1 S1].
  destruct (H2 dirent_compare entries dirent_compare_consistent) as [P2 S2].
  apply (ascending_unique dirent_compare); try assumption.
  - eapply perm_trans; [apply Permutation_sym, P1 | exact P2].
  - intros a b Ha Hb. apply (names_differ_ties entries Hn).
    + eapply Permutation_in; [apply Permutation_sym, P1 | exact Ha].
    + eapply Permutation_in; [apply Permutation_sym, P1 | exact Hb].
Qed.

Lemma qsort_again (qsort : (dirent -> dirent -> Z) -> list dirent -> list dirent)
    (entries : list dirent) :
  qsort_spec qsort -> names_differ entries ->
  sort_entries qsort entries = qsort dirent_compare entries.
Proof.
  intros Hq Hn. unfold sort_entries.
  destruct (Hq dirent_compare entries dirent_compare_consistent) as [P1 S1].
  destruct (Hq dirent_compare (qsort dirent_compare entries)
              dirent_compare_consistent) as [P2 S2].
  apply (ascending_unique dirent_compare); try assumption.
  - now apply Permutation_sym.
  - intros a b Ha Hb. apply (names_differ_ties entries Hn).
    + eapply Permutation_in; [apply Permutation_sym, P1|].
      eapply Permutation_in; [apply Permutation_sym, P2 | exact Ha].
    + eapply Permutation_in; [apply Permutation_sym, P1|].
      eapply Permutation_in; [apply Permutation_sym, P2 | exact Hb].
Qed.

Lemma names_differ_filter (f : dirent -> bool) (entries : list dirent) :
  names_differ entries -> names_differ (filter f entries).
Proof.
  intros H a b Ha Hb. apply filter_In in Ha, Hb. apply H; tauto.
Qed.

Lemma walk_entries_ext (b1 b2 : string -> result (list dirent)) :
  (forall name, b1 name = b2 name) ->
  forall entries, walk_entries b1 entries = walk_entries b2 entries.
Proof.
  intros H. induction entries as [|dp rest IH]; simpl; [reflexivity|].
  now rewrite H, IH.
Qed.

(** X15. The second of the two [qsort] calls of lines 168 and 171 changes
    nothing: on entries with different names, sorting the sorted array
    again gives it back. *)
Theorem X15_second_qsort_is_redundant
    (qsort : (dirent -> dirent -> Z) -> list dirent -> list dirent)
    (entries : list dirent) :
  qsort_spec qsort ->
  names_differ entries ->
  sort_entries qsort entries = qsort dirent_compare entries.
Proof.
  intros Hq Hn. unfold sort_entries.
  destruct (Hq dirent_compare entries dirent_compare_consistent) as [P1 S1].
  destruct (Hq dirent_compare (qsort dirent_compare entries)
              dirent_compare_consistent) as [P2 S2].
  apply (ascending_unique dirent_compare);
    [exact S2 | exact S1 | now apply Permutation_sym |].
  intros a b Ha Hb.
  assert (Hin : forall x, In x (qsort dirent_compare
                                  (qsort dirent_compare entries)) ->
                          In x entries).
  { intros x Hx. eapply Permutation_in; [apply Permutation_sym, P1|].
    eapply Permutation_in; [apply Permutation_sym, P2 | exact Hx]. }
  apply (names_differ_ties entries Hn); now apply Hin.
Qed.

(** X16. The listing is fixed by the contract of [qsort], not by the
    libc that implements it: on a file system in which no directory
    lists a name twice, two sorting functions that both keep the
    contract give the same run of [processDir], line for line. *)
Theorem X16_listing_independent_of_qsort
    (q1 q2 : (dirent -> dirent -> Z) -> list dirent -> list dirent)
    (fs : filesystem) (fuel : nat) (dn pstr : string) (stats : summary)
    (flags : Z) (w : world) :
  qsort_spec q1 -> qsort_spec q2 ->
  distinct_names fs ->
  processDir q1 fs fuel dn pstr stats flags w =
  processDir q2 fs fuel dn pstr stats flags w.
Proof.
  intros H1 H2 Hd. rewrite !processDir_walk.
  replace (walk q2 fs fuel dn pstr) with (walk q1 fs fuel dn pstr);
    [reflexivity|].
  revert dn pstr. induction fuel as [|fuel IH]; intros dn pstr; simpl;
    [reflexivity|].
  destruct (newPath pstr dn) as [path|]; [|reflexivity].
  destruct (dir_stream fs path) as [stream|] eqn:Es; [|reflexivity].
  destruct (INT_MAX <? _); [reflexivity|].
  destruct (_ =? 0); [reflexivity|].
  assert (Hn : names_differ (filter not_dot stream)).
  { apply names_differ_filter. intros a b. now apply (Hd path stream). }
  rewrite (qsort_again q1 _ H1 Hn), (qsort_again q2 _ H2 Hn).
  rewrite (qsort_unique q1 q2 _ H1 H2 Hn).
  apply walk_entries_ext. intros name. apply IH.
Qed.

(** Entries listed one by one have different names when the names are
    different strings. *)
Ltac names_by_cases :=
  intros a b Ha Hb; cbn [In app dot_entries] in Ha, Hb;
  repeat match goal with
         | H : _ \/ _ |- _ => destruct H as [H | H]
         | H : False |- _ => destruct H
         end;
  subst; intros Hname; first [reflexivity | discriminate Hname].

Lemma sample_siblings_differ :
  names_differ [mkDirent DT_REG 32 "b.txt"; mkDirent DT_DIR 24 "a";
                mkDirent DT_LNK 24 "Z"; mkDirent DT_DIR 24 "C"].
Proof. names_by_cases. Qed.

Lemma X15_sorted_once :
  sort_entries insertion_sort
    [mkDirent DT_REG 32 "b.txt"; mkDirent DT_DIR 24 "a";
     mkDirent DT_LNK 24 "Z"; mkDirent DT_DIR 24 "C"]
  = insertion_sort dirent_compare
      [mkDirent DT_REG 32 "b.txt"; mkDirent DT_DIR 24 "a";
       mkDirent DT_LNK 24 "Z"; mkDirent DT_DIR 24 "C"].
Proof.
  apply (X15_second_qsort_is_redundant insertion_sort).
  - apply insertion_sort_spec.
  - apply sample_siblings_differ.
Defined.

Lemma fs_sample_distinct_names : distinct_names fs_sample.
Proof.
  intros path stream a b Hs. unfold fs_sample in Hs. cbn [dir_stream] in Hs.
  destruct (String.eqb path "./A").
  { inversion Hs; subst stream. revert a b. names_by_cases. }
  destruct (String.eqb path "./A/C"); [|discriminate].
  inversion Hs; subst stream. revert a b. names_by_cases.
Qed.

(** The sample tree listed with two different sorting functions. *)
Lemma X16_two_sorts_one_listing :
  processDir insertion_sort fs_sample 2 "A" "." summary_zero 0 world_init
  = processDir insertion_sort_rev fs_sample 2 "A" "." summary_zero 0
               world_init.
Proof.
  apply (X16_listing_independent_of_qsort insertion_sort insertion_sort_rev
           fs_sample 2 "A" "." summary_zero 0 world_init).
  - apply insertion_sort_spec.
  - apply insertion_sort_rev_spec.
  - apply fs_sample_distinct_names.
Defined.

(* ================================================================= *)
(** * A subdirectory that cannot be opened *)

(** X17. A subdirectory that cannot be opened is listed and counted like
    any entry and then passed over without a message: the loop goes on
    with the next sibling as it does after an entry that is no
    directory. *)
Theorem X17_unopenable_subdirectory_passed_over
    (qsort : (dirent -> dirent -> Z) -> list dirent -> list dirent)
    (fs : filesystem) (fuel : nat) (path below : string) (dp : dirent)
    (rest : list dirent) (stats : summary) (flags : Z) (w : world) :
  newPath path (d_name dp) = Some below ->
  dir_stream fs below = None ->
  visit (fun name st w' => processDir qsort fs (S fuel) name path st flags w')
        (dp :: rest) stats w =
  visit (fun name st w' => processDir qsort fs (S fuel) name path st flags w')
        rest (update_stats stats dp) (printf w (EntryLine (d_name dp))).
Proof.
  intros Hp Hd. cbn [visit]. destruct (descends dp); [|reflexivity].
  now rewrite (processDir_unavailable qsort fs fuel _ _ _ _ _ _ Hp Hd).
Qed.

Lemma X17_locked_subdirectory :
  visit (fun name st w' =>
           processDir insertion_sort fs_sample 1 name "./A/C" st 0 w')
        [mkDirent DT_DIR 24 "locked"; mkDirent DT_REG 32 "d.txt"]
        summary_zero world_init
  = visit (fun name st w' =>
             processDir insertion_sort fs_sample 1 name "./A/C" st 0 w')
          [mkDirent DT_REG 32 "d.txt"]
          (update_stats summary_zero (mkDirent DT_DIR 24 "locked"))
          (printf world_init (EntryLine "locked")).
Proof.
  apply (X17_unopenable_subdirectory_passed_over insertion_sort fs_sample 0
           "./A/C" "./A/C/locked" (mkDirent DT_DIR 24 "locked")
           [mkDirent DT_REG 32 "d.txt"] summary_zero 0 world_init).
  - reflexivity.
  - reflexivity.
Defined.

(* ================================================================= *)
(** * What main prints *)

Section MainOutput.

Variable qsort : (dirent -> dirent -> Z) -> list dirent -> list dirent.
Variable libgen : string -> string * option string.
Variable fs : filesystem.

(** X18. The standard output of a run that gets past the argument loop
    is: the warnings about surplus operands; the blocks of the roots in
    order; and the grand total, which appears exactly when [-s] is given
    and at least two directories are traversed, counts the directories
    traversed (at most 64) and shows the size and block lines only when
    [-v] is given too. *)
Theorem X18_output_of_main (fuel : nat) (argv0 : string)
    (args : list string) (w : world) (code : Z) (w' : world) :
  existsb stops args = false ->
  main qsort libgen fs fuel (argv0 :: args) w = Ok (code, w') ->
  exists runs,
    walk_roots qsort libgen fs fuel (roots_of args) = Ok runs /\
    stdout w' =
    stdout w ++ warnings (skipn 64 (operands args))
    ++ root_blocks (parsed_flags args 0) (roots_of args) runs
    ++ total_lines args (grand_total runs summary_zero).
Proof.
  intros Hs H. rewrite (main_run qsort libgen fs fuel argv0 args w Hs) in H.
  cbv zeta in H. fold (roots_of args) in H.
  apply bind_Ok in H. destruct H as ([tstat w2] & Hp & H).
  inversion H; subst code w'. clear H.
  rewrite process_directories_runs in Hp.
  apply bind_Ok in Hp. destruct Hp as (runs & Hr & Hp).
  inversion Hp; subst tstat w2. clear Hp.
  exists runs. split; [exact Hr|].
  destruct (parsed_flags_given args) as (_ & HS & HV).
  unfold report_totals, total_lines. rewrite HS, HV.
  destruct (given "-s" args && _);
    [destruct (given "-v" args)|];
    cbn [printf stdout]; rewrite <- ?app_assoc; cbn [app];
    rewrite ?app_nil_r; reflexivity.
Qed.

End MainOutput.

Lemma X18_summary_of_two_roots :
  exists runs,
    walk_roots insertion_sort libgen_plain fs_sample 2
               (roots_of ["-s"; "A"; "nope"]%string) = Ok runs /\
    stdout (mkWorld (DirectoryHeader "A" :: sample_output
                     ++ [DirectorySummary sample_stats;
                         DirectoryHeader "nope";
                         DirectorySummary summary_zero;
                         GrandTotalCounts 2 sample_stats]) [] [])
    = stdout world_init
      ++ warnings (skipn 64 (operands ["-s"; "A"; "nope"]%string))
      ++ root_blocks (parsed_flags ["-s"; "A"; "nope"]%string 0)
           (roots_of ["-s"; "A"; "nope"]%string) runs
      ++ total_lines ["-s"; "A"; "nope"]%string
           (grand_total runs summary_zero).
Proof.
  apply (X18_output_of_main insertion_sort libgen_plain fs_sample 2
           "dirtree" ["-s"; "A"; "nope"]%string world_init EXIT_SUCCESS
           (mkWorld (DirectoryHeader "A" :: sample_output
                     ++ [DirectorySummary sample_stats;
                         DirectoryHeader "nope";
                         DirectorySummary summary_zero;
                         GrandTotalCounts 2 sample_stats]) [] [])).
  - vm_compute. reflexivity.
  - vm_compute. reflexivity.
Defined.
